(** * Pinocchio setup, prover and verifier of go-snark (proof/pinocchio.go)

    A shallow embedding of [PinocchioSetup.Init], [PinocchioSetup.Generate]
    and [PinocchioSetup.Verify], and the properties of them that the
    specification states.

    Conventions of the embedding.
    - A [*big.Int] is a [Z]; the field and curve helpers return fresh values
      and never mutate their arguments, so values are passed by copy.
    - A G1 point [[3]*big.Int] is a triple of [Z]; an Fq2 element
      [[2]*big.Int] is a pair; a G2 point [[3][2]*big.Int] is a triple of
      pairs.
    - The helpers reached through the global [Utils] bundle (FqR, PF, Bn.G1,
      Bn.G2, Bn.Fq2, Bn.Fq6, Bn.Fq12, Bn.Pairing) live in other packages.
      They are operations of the classes [Fields], [Curve] and [PairingOps];
      every general theorem holds for all of their implementations.
    - A Go [int] is a [Z] in the signed 64-bit range; the one addition that
      can leave the range ([cir.NPublic + 1]) wraps around.
    - Indexing a slice out of range is a run-time panic: [Panicked].
    - A pointer is never nil: a [*PinocchioProof] is the struct it points
      to, and the zero value of a [*big.Int] field is written 0.
    - [Utils.FqR.Rand()] reads the system randomness; [Init] takes the
      results of its successive calls as a function of the call number. *)

From Stdlib Require Import String ZArith List Lia Bool.
Import ListNotations.
Open Scope Z_scope.

Set Implicit Arguments.

(** ** Data model *)

Abbreviation big := Z (only parsing).
Abbreviation Poly := (list Z) (only parsing).
Abbreviation G1Point := (Z * Z * Z)%type (only parsing).
Abbreviation Fq2E := (Z * Z)%type (only parsing).
Abbreviation G2Point := ((Z * Z) * (Z * Z) * (Z * Z))%type (only parsing).
Abbreviation error := string (only parsing).

(** [circuit.Circuit]: the fields the three functions read. *)
Record Circuit : Type := mkCircuit {
  NVars : Z;
  NPublic : Z;
  Signals : list string
}.

Record ToxicT : Type := mkToxic {
  Toxic_T : big;
  Toxic_Ka : big;
  Toxic_Kb : big;
  Toxic_Kc : big;
  Toxic_Kbeta : big;
  Toxic_Kgamma : big;
  Toxic_RhoA : big;
  Toxic_RhoB : big;
  Toxic_RhoC : big
}.

Record PkT : Type := mkPk {
  Pk_A : list G1Point;
  Pk_B : list G2Point;
  Pk_C : list G1Point;
  Pk_Kp : list G1Point;
  Pk_Ap : list G1Point;
  Pk_Bp : list G1Point;
  Pk_Cp : list G1Point;
  Pk_Z : Poly
}.

Record VkT : Type := mkVk {
  Vk_Vka : G2Point;
  Vk_Vkb : G1Point;
  Vk_Vkc : G2Point;
  Vk_IC : list G1Point;
  Vk_G1Kbg : G1Point;
  Vk_G2Kbg : G2Point;
  Vk_G2Kg : G2Point;
  Vk_Vkz : G2Point
}.

Record PinocchioSetup : Type := mkSetup {
  Toxic : ToxicT;
  G1T : list G1Point;
  G2T : list G2Point;
  Pk : PkT;
  Vk : VkT
}.

Record PinocchioProof : Type := mkProof {
  PiA : G1Point;
  PiAp : G1Point;
  PiB : G2Point;
  PiBp : G1Point;
  PiC : G1Point;
  PiCp : G1Point;
  PiH : G1Point;
  PiKp : G1Point
}.

(** The [Proof] interface: a value is a [*PinocchioProof] or has some other
    dynamic type (named by a string; the nil interface is one of these). *)
Inductive Proof : Type :=
| PinocchioP (pproof : PinocchioProof)
| ForeignP (dynamic_type : string).

(** The zero value of a [PinocchioSetup] (what [&PinocchioSetup{}] holds). *)
Definition zeroG1 : G1Point := (0, 0, 0).
Definition zeroG2 : G2Point := ((0, 0), (0, 0), (0, 0)).

Definition empty_setup : PinocchioSetup :=
  {| Toxic := mkToxic 0 0 0 0 0 0 0 0 0;
     G1T := [];
     G2T := [];
     Pk := mkPk [] [] [] [] [] [] [] [];
     Vk := mkVk zeroG2 zeroG1 zeroG2 [] zeroG1 zeroG2 zeroG2 zeroG2 |}.

(** ** Field updates *)

Definition upd_Toxic (f : ToxicT -> ToxicT) (s : PinocchioSetup) : PinocchioSetup :=
  {| Toxic := f (Toxic s); G1T := G1T s; G2T := G2T s; Pk := Pk s; Vk := Vk s |}.
Definition upd_Pk (f : PkT -> PkT) (s : PinocchioSetup) : PinocchioSetup :=
  {| Toxic := Toxic s; G1T := G1T s; G2T := G2T s; Pk := f (Pk s); Vk := Vk s |}.
Definition upd_Vk (f : VkT -> VkT) (s : PinocchioSetup) : PinocchioSetup :=
  {| Toxic := Toxic s; G1T := G1T s; G2T := G2T s; Pk := Pk s; Vk := f (Vk s) |}.
Definition set_G1T (v : list G1Point) (s : PinocchioSetup) : PinocchioSetup :=
  {| Toxic := Toxic s; G1T := v; G2T := G2T s; Pk := Pk s; Vk := Vk s |}.

Definition set_T (v : big) (t : ToxicT) : ToxicT :=
  mkToxic v (Toxic_Ka t) (Toxic_Kb t) (Toxic_Kc t) (Toxic_Kbeta t)
          (Toxic_Kgamma t) (Toxic_RhoA t) (Toxic_RhoB t) (Toxic_RhoC t).
Definition set_Ka (v : big) (t : ToxicT) : ToxicT :=
  mkToxic (Toxic_T t) v (Toxic_Kb t) (Toxic_Kc t) (Toxic_Kbeta t)
          (Toxic_Kgamma t) (Toxic_RhoA t) (Toxic_RhoB t) (Toxic_RhoC t).
Definition set_Kb (v : big) (t : ToxicT) : ToxicT :=
  mkToxic (Toxic_T t) (Toxic_Ka t) v (Toxic_Kc t) (Toxic_Kbeta t)
          (Toxic_Kgamma t) (Toxic_RhoA t) (Toxic_RhoB t) (Toxic_RhoC t).
Definition set_Kc (v : big) (t : ToxicT) : ToxicT :=
  mkToxic (Toxic_T t) (Toxic_Ka t) (Toxic_Kb t) v (Toxic_Kbeta t)
          (Toxic_Kgamma t) (Toxic_RhoA t) (Toxic_RhoB t) (Toxic_RhoC t).
Definition set_Kbeta (v : big) (t : ToxicT) : ToxicT :=
  mkToxic (Toxic_T t) (Toxic_Ka t) (Toxic_Kb t) (Toxic_Kc t) v
          (Toxic_Kgamma t) (Toxic_RhoA t) (Toxic_RhoB t) (Toxic_RhoC t).
Definition set_Kgamma (v : big) (t : ToxicT) : ToxicT :=
  mkToxic (Toxic_T t) (Toxic_Ka t) (Toxic_Kb t) (Toxic_Kc t) (Toxic_Kbeta t)
          v (Toxic_RhoA t) (Toxic_RhoB t) (Toxic_RhoC t).
Definition set_RhoA (v : big) (t : ToxicT) : ToxicT :=
  mkToxic (Toxic_T t) (Toxic_Ka t) (Toxic_Kb t) (Toxic_Kc t) (Toxic_Kbeta t)
          (Toxic_Kgamma t) v (Toxic_RhoB t) (Toxic_RhoC t).
Definition set_RhoB (v : big) (t : ToxicT) : ToxicT :=
  mkToxic (Toxic_T t) (Toxic_Ka t) (Toxic_Kb t) (Toxic_Kc t) (Toxic_Kbeta t)
          (Toxic_Kgamma t) (Toxic_RhoA t) v (Toxic_RhoC t).
Definition set_RhoC (v : big) (t : ToxicT) : ToxicT :=
  mkToxic (Toxic_T t) (Toxic_Ka t) (Toxic_Kb t) (Toxic_Kc t) (Toxic_Kbeta t)
          (Toxic_Kgamma t) (Toxic_RhoA t) (Toxic_RhoB t) v.

Definition set_Pk_A (v : list G1Point) (p : PkT) : PkT :=
  mkPk v (Pk_B p) (Pk_C p) (Pk_Kp p) (Pk_Ap p) (Pk_Bp p) (Pk_Cp p) (Pk_Z p).
Definition set_Pk_B (v : list G2Point) (p : PkT) : PkT :=
  mkPk (Pk_A p) v (Pk_C p) (Pk_Kp p) (Pk_Ap p) (Pk_Bp p) (Pk_Cp p) (Pk_Z p).
Definition set_Pk_C (v : list G1Point) (p : PkT) : PkT :=
  mkPk (Pk_A p) (Pk_B p) v (Pk_Kp p) (Pk_Ap p) (Pk_Bp p) (Pk_Cp p) (Pk_Z p).
Definition set_Pk_Kp (v : list G1Point) (p : PkT) : PkT :=
  mkPk (Pk_A p) (Pk_B p) (Pk_C p) v (Pk_Ap p) (Pk_Bp p) (Pk_Cp p) (Pk_Z p).
Definition set_Pk_Ap (v : list G1Point) (p : PkT) : PkT :=
  mkPk (Pk_A p) (Pk_B p) (Pk_C p) (Pk_Kp p) v (Pk_Bp p) (Pk_Cp p) (Pk_Z p).
Definition set_Pk_Bp (v : list G1Point) (p : PkT) : PkT :=
  mkPk (Pk_A p) (Pk_B p) (Pk_C p) (Pk_Kp p) (Pk_Ap p) v (Pk_Cp p) (Pk_Z p).
Definition set_Pk_Cp (v : list G1Point) (p : PkT) : PkT :=
  mkPk (Pk_A p) (Pk_B p) (Pk_C p) (Pk_Kp p) (Pk_Ap p) (Pk_Bp p) v (Pk_Z p).
Definition set_Pk_Z (v : Poly) (p : PkT) : PkT :=
  mkPk (Pk_A p) (Pk_B p) (Pk_C p) (Pk_Kp p) (Pk_Ap p) (Pk_Bp p) (Pk_Cp p) v.

Definition set_Vka (v : G2Point) (k : VkT) : VkT :=
  mkVk v (Vk_Vkb k) (Vk_Vkc k) (Vk_IC k) (Vk_G1Kbg k) (Vk_G2Kbg k) (Vk_G2Kg k) (Vk_Vkz k).
Definition set_Vkb (v : G1Point) (k : VkT) : VkT :=
  mkVk (Vk_Vka k) v (Vk_Vkc k) (Vk_IC k) (Vk_G1Kbg k) (Vk_G2Kbg k) (Vk_G2Kg k) (Vk_Vkz k).
Definition set_Vkc (v : G2Point) (k : VkT) : VkT :=
  mkVk (Vk_Vka k) (Vk_Vkb k) v (Vk_IC k) (Vk_G1Kbg k) (Vk_G2Kbg k) (Vk_G2Kg k) (Vk_Vkz k).
Definition set_IC (v : list G1Point) (k : VkT) : VkT :=
  mkVk (Vk_Vka k) (Vk_Vkb k) (Vk_Vkc k) v (Vk_G1Kbg k) (Vk_G2Kbg k) (Vk_G2Kg k) (Vk_Vkz k).
Definition set_G1Kbg (v : G1Point) (k : VkT) : VkT :=
  mkVk (Vk_Vka k) (Vk_Vkb k) (Vk_Vkc k) (Vk_IC k) v (Vk_G2Kbg k) (Vk_G2Kg k) (Vk_Vkz k).
Definition set_G2Kbg (v : G2Point) (k : VkT) : VkT :=
  mkVk (Vk_Vka k) (Vk_Vkb k) (Vk_Vkc k) (Vk_IC k) (Vk_G1Kbg k) v (Vk_G2Kg k) (Vk_Vkz k).
Definition set_G2Kg (v : G2Point) (k : VkT) : VkT :=
  mkVk (Vk_Vka k) (Vk_Vkb k) (Vk_Vkc k) (Vk_IC k) (Vk_G1Kbg k) (Vk_G2Kbg k) v (Vk_Vkz k).
Definition set_Vkz (v : G2Point) (k : VkT) : VkT :=
  mkVk (Vk_Vka k) (Vk_Vkb k) (Vk_Vkc k) (Vk_IC k) (Vk_G1Kbg k) (Vk_G2Kbg k) (Vk_G2Kg k) v.

(** ** The helper bundle [Utils] *)

(** [Utils.FqR] (scalars) and [Utils.PF] (polynomials over them). *)
Class Fields : Type := {
  FqR_Add : big -> big -> big;
  FqR_Mul : big -> big -> big;
  FqR_Neg : big -> big;
  PF_Eval : Poly -> big -> big;
  PF_Mul : Poly -> Poly -> Poly;
  PF_DivisorPolynomial : Poly -> Poly -> Poly
}.

(** [Utils.Bn.G1], [Utils.Bn.G2] and the two tower helpers the file calls on
    points: [Fq2.Equal] on affine pairs and [Fq6.Zero] as the initial G2
    accumulator. *)
Class Curve : Type := {
  G1_F_Zero : big;
  G1_G : G1Point;
  G1_Add : G1Point -> G1Point -> G1Point;
  G1_MulScalar : G1Point -> big -> G1Point;
  G1_Affine : G1Point -> Fq2E;
  G2_G : G2Point;
  G2_Add : G2Point -> G2Point -> G2Point;
  G2_MulScalar : G2Point -> big -> G2Point;
  Fq2_Equal : Fq2E -> Fq2E -> bool;
  Fq6_Zero : G2Point
}.

(** [Utils.Bn.Pairing] and [Utils.Bn.Fq12]. *)
Class PairingOps : Type := {
  Fq12E : Type;
  Bn_Pairing : G1Point -> G2Point -> Fq12E;
  Fq12_Mul : Fq12E -> Fq12E -> Fq12E;
  Fq12_Equal : Fq12E -> Fq12E -> bool
}.

(** ** Control flow *)

(** What a call does: it returns, or the run-time aborts it. *)
Inductive outcome (A : Type) : Type :=
| Returned (a : A)
| Panicked.
Arguments Panicked {A}.

(** What a statement inside a function body does: fall through with the
    new state, [return], or panic. *)
Inductive ctl (S R : Type) : Type :=
| Continue (s : S)
| Return (r : R)
| Panic.
Arguments Continue {S R} s.
Arguments Return {S R} r.
Arguments Panic {S R}.

Notation "'do' x <- c ; k" :=
  (match c with
   | Continue x => k
   | Return r => Return r
   | Panic => Panic
   end)
  (at level 10, x pattern, c at level 100, k at level 200).

Notation "'get' x <- o ; k" :=
  (match o with
   | Some x => k
   | None => Panic
   end)
  (at level 10, x pattern, o at level 100, k at level 200).

(** [l[i]] for a Go [int] index. *)
Definition index {A : Type} (l : list A) (i : Z) : option A :=
  if i <? 0 then None else nth_error l (Z.to_nat i).

Definition len {A : Type} (l : list A) : Z := Z.of_nat (length l).

(** Two's-complement wrap-around of a 64-bit [int]. *)
Definition int_wrap (z : Z) : Z := (z + 2 ^ 63) mod 2 ^ 64 - 2 ^ 63.
Definition int_ok (z : Z) : Prop := - 2 ^ 63 <= z < 2 ^ 63.

(** [for i := lo; i < hi; i++ { body }]: the body runs for
    [lo, lo+1, ..., hi-1] unless it returns or panics on the way. *)
Fixpoint for_loop {S R : Type} (n : nat) (i : Z) (body : Z -> S -> ctl S R) (s : S)
  : ctl S R :=
  match n with
  | O => Continue s
  | Datatypes.S n' =>
      match body i s with
      | Continue s' => for_loop n' (i + 1) body s'
      | Return r => Return r
      | Panic => Panic
      end
  end.

Definition for_range {S R : Type} (lo hi : Z) (body : Z -> S -> ctl S R) (s : S)
  : ctl S R :=
  for_loop (Z.to_nat (hi - lo)) lo body s.

Definition run {A : Type} (c : ctl A A) : outcome A :=
  match c with
  | Continue a => Returned a
  | Return a => Returned a
  | Panic => Panicked
  end.

Definition set_PiA (v : G1Point) (p : PinocchioProof) : PinocchioProof :=
  mkProof v (PiAp p) (PiB p) (PiBp p) (PiC p) (PiCp p) (PiH p) (PiKp p).
Definition set_PiAp (v : G1Point) (p : PinocchioProof) : PinocchioProof :=
  mkProof (PiA p) v (PiB p) (PiBp p) (PiC p) (PiCp p) (PiH p) (PiKp p).
Definition set_PiB (v : G2Point) (p : PinocchioProof) : PinocchioProof :=
  mkProof (PiA p) (PiAp p) v (PiBp p) (PiC p) (PiCp p) (PiH p) (PiKp p).
Definition set_PiBp (v : G1Point) (p : PinocchioProof) : PinocchioProof :=
  mkProof (PiA p) (PiAp p) (PiB p) v (PiC p) (PiCp p) (PiH p) (PiKp p).
Definition set_PiC (v : G1Point) (p : PinocchioProof) : PinocchioProof :=
  mkProof (PiA p) (PiAp p) (PiB p) (PiBp p) v (PiCp p) (PiH p) (PiKp p).
Definition set_PiCp (v : G1Point) (p : PinocchioProof) : PinocchioProof :=
  mkProof (PiA p) (PiAp p) (PiB p) (PiBp p) (PiC p) v (PiH p) (PiKp p).
Definition set_PiH (v : G1Point) (p : PinocchioProof) : PinocchioProof :=
  mkProof (PiA p) (PiAp p) (PiB p) (PiBp p) (PiC p) (PiCp p) v (PiKp p).
Definition set_PiKp (v : G1Point) (p : PinocchioProof) : PinocchioProof :=
  mkProof (PiA p) (PiAp p) (PiB p) (PiBp p) (PiC p) (PiCp p) (PiH p) v.

(** The results of the successive calls of [Utils.FqR.Rand()]: the value and
    the error of call number [k]. *)
Definition RandT : Type := nat -> big * option error.

(** ** The three functions of pinocchio.go *)

Section Embedding.

Context {F : Fields} {Cv : Curve}.

(** [setup.Toxic.X, err = Utils.FqR.Rand(); if err != nil { return err }] *)
Definition rand_into (rand : RandT) (k : nat) (set : big -> ToxicT -> ToxicT)
    (setup : PinocchioSetup)
  : ctl (PinocchioSetup * option error) (PinocchioSetup * option error) :=
  let '(v, err) := rand k in
  let setup := upd_Toxic (set v) setup in
  match err with
  | Some _ => Return (setup, err)
  | None => Continue (setup, err)
  end.

(** Body of the loop over the signals (lines 118-152); [err] is the
    function's error variable as the loop finds it. *)
Definition Init_signal (err : option error) (cir : Circuit)
    (alphas betas gammas : list Poly) (i : Z) (setup : PinocchioSetup)
  : ctl PinocchioSetup (PinocchioSetup * option error) :=
  get alphas_i <- index alphas i;
  let at_ := PF_Eval alphas_i (Toxic_T (Toxic setup)) in
  let rhoAat := FqR_Mul (Toxic_RhoA (Toxic setup)) at_ in
  let a := G1_MulScalar G1_G rhoAat in
  let setup := upd_Pk (fun pk => set_Pk_A (Pk_A pk ++ [a]) pk) setup in
  let setup :=
    if i <=? NPublic cir
    then upd_Vk (fun vk => set_IC (Vk_IC vk ++ [a]) vk) setup
    else setup in
  get betas_i <- index betas i;
  let bt := PF_Eval betas_i (Toxic_T (Toxic setup)) in
  let rhoBbt := FqR_Mul (Toxic_RhoB (Toxic setup)) bt in
  let bg1 := G1_MulScalar G1_G rhoBbt in
  let bg2 := G2_MulScalar G2_G rhoBbt in
  let setup := upd_Pk (fun pk => set_Pk_B (Pk_B pk ++ [bg2]) pk) setup in
  get gammas_i <- index gammas i;
  let ct := PF_Eval gammas_i (Toxic_T (Toxic setup)) in
  let rhoCct := FqR_Mul (Toxic_RhoC (Toxic setup)) ct in
  let c := G1_MulScalar G1_G rhoCct in
  let setup := upd_Pk (fun pk => set_Pk_C (Pk_C pk ++ [c]) pk) setup in
  let kt := FqR_Add (FqR_Add rhoAat rhoBbt) rhoCct in
  let k := G1_Affine (G1_MulScalar G1_G kt) in
  let ktest := G1_Affine (G1_Add (G1_Add a bg1) c) in
  if negb (Fq2_Equal k ktest) then Return (setup, err) else
  let setup := upd_Pk (fun pk =>
    set_Pk_Ap (Pk_Ap pk ++ [G1_MulScalar a (Toxic_Ka (Toxic setup))]) pk) setup in
  let setup := upd_Pk (fun pk =>
    set_Pk_Bp (Pk_Bp pk ++ [G1_MulScalar bg1 (Toxic_Kb (Toxic setup))]) pk) setup in
  let setup := upd_Pk (fun pk =>
    set_Pk_Cp (Pk_Cp pk ++ [G1_MulScalar c (Toxic_Kc (Toxic setup))]) pk) setup in
  let kk := G1_MulScalar G1_G kt in
  let setup := upd_Pk (fun pk =>
    set_Pk_Kp (Pk_Kp pk ++ [G1_MulScalar kk (Toxic_Kbeta (Toxic setup))]) pk) setup in
  Continue setup.

(** Body of the loop that builds [zpol] (lines 155-162). *)
Definition Init_zpol (i : Z) (zpol : Poly) : ctl Poly (PinocchioSetup * option error) :=
  Continue (PF_Mul zpol [FqR_Neg i; 1]).

(** Body of the loop that builds [gt1] (lines 172-175); the state is
    [(gt1, tEncr)]. *)
Definition Init_gt1 (t : big) (i : Z) (st : list G1Point * big)
  : ctl (list G1Point * big) (PinocchioSetup * option error) :=
  let '(gt1, tEncr) := st in
  let gt1 := gt1 ++ [G1_MulScalar G1_G tEncr] in
  let tEncr := FqR_Mul tEncr t in
  Continue (gt1, tEncr).

(** [func (setup *PinocchioSetup) Init(cir, alphas, betas, gammas) error]:
    the result is the receiver as the call leaves it and the error. *)
Definition Init (rand : RandT) (setup : PinocchioSetup) (cir : Circuit)
    (alphas betas gammas : list Poly)
  : outcome (PinocchioSetup * option error) :=
  run (
    do (setup, _) <- rand_into rand 0 set_T setup;
    do (setup, _) <- rand_into rand 1 set_Ka setup;
    do (setup, _) <- rand_into rand 2 set_Kb setup;
    do (setup, _) <- rand_into rand 3 set_Kc setup;
    do (setup, _) <- rand_into rand 4 set_Kbeta setup;
    do (setup, _) <- rand_into rand 5 set_Kgamma setup;
    let kbg := FqR_Mul (Toxic_Kbeta (Toxic setup)) (Toxic_Kgamma (Toxic setup)) in
    do (setup, _) <- rand_into rand 6 set_RhoA setup;
    do (setup, err) <- rand_into rand 7 set_RhoB setup;
    let setup := upd_Toxic (set_RhoC
      (FqR_Mul (Toxic_RhoA (Toxic setup)) (Toxic_RhoB (Toxic setup)))) setup in
    let setup := upd_Vk (set_Vka (G2_MulScalar G2_G (Toxic_Ka (Toxic setup)))) setup in
    let setup := upd_Vk (set_Vkb (G1_MulScalar G1_G (Toxic_Kb (Toxic setup)))) setup in
    let setup := upd_Vk (set_Vkc (G2_MulScalar G2_G (Toxic_Kc (Toxic setup)))) setup in
    let setup := upd_Vk (set_G1Kbg (G1_MulScalar G1_G kbg)) setup in
    let setup := upd_Vk (set_G2Kbg (G2_MulScalar G2_G kbg)) setup in
    let setup := upd_Vk (set_G2Kg (G2_MulScalar G2_G (Toxic_Kgamma (Toxic setup)))) setup in
    do setup <- for_range 0 (len (Signals cir))
                  (Init_signal err cir alphas betas gammas) setup;
    do zpol <- for_range 1 (len alphas - 1) Init_zpol [1];
    let setup := upd_Pk (set_Pk_Z zpol) setup in
    let zt := PF_Eval zpol (Toxic_T (Toxic setup)) in
    let rhoCzt := FqR_Mul (Toxic_RhoC (Toxic setup)) zt in
    let setup := upd_Vk (set_Vkz (G2_MulScalar G2_G rhoCzt)) setup in
    let gt1 := [G1_G] in
    let tEncr := Toxic_T (Toxic setup) in
    do (gt1, tEncr) <- for_range 1 (len zpol) (Init_gt1 (Toxic_T (Toxic setup)))
                         (gt1, tEncr);
    let setup := set_G1T gt1 setup in
    Return (setup, None)).

(** Lines 183-191: the proof [Generate] starts from. *)
Definition new_proof : PinocchioProof :=
  {| PiA := (G1_F_Zero, G1_F_Zero, G1_F_Zero);
     PiAp := (G1_F_Zero, G1_F_Zero, G1_F_Zero);
     PiB := Fq6_Zero;
     PiBp := (G1_F_Zero, G1_F_Zero, G1_F_Zero);
     PiC := (G1_F_Zero, G1_F_Zero, G1_F_Zero);
     PiCp := (G1_F_Zero, G1_F_Zero, G1_F_Zero);
     PiH := (G1_F_Zero, G1_F_Zero, G1_F_Zero);
     PiKp := (G1_F_Zero, G1_F_Zero, G1_F_Zero) |}.

(** Body of the loop of lines 193-196. *)
Definition Generate_private (setup : PinocchioSetup) (w : list big) (i : Z)
    (proof : PinocchioProof) : ctl PinocchioProof (Proof * option error) :=
  get a_i <- index (Pk_A (Pk setup)) i;
  get w_i <- index w i;
  let proof := set_PiA (G1_Add (PiA proof) (G1_MulScalar a_i w_i)) proof in
  get ap_i <- index (Pk_Ap (Pk setup)) i;
  let proof := set_PiAp (G1_Add (PiAp proof) (G1_MulScalar ap_i w_i)) proof in
  Continue proof.

(** Body of the loop of lines 198-206. *)
Definition Generate_all (setup : PinocchioSetup) (w : list big) (i : Z)
    (proof : PinocchioProof) : ctl PinocchioProof (Proof * option error) :=
  get b_i <- index (Pk_B (Pk setup)) i;
  get w_i <- index w i;
  let proof := set_PiB (G2_Add (PiB proof) (G2_MulScalar b_i w_i)) proof in
  get bp_i <- index (Pk_Bp (Pk setup)) i;
  let proof := set_PiBp (G1_Add (PiBp proof) (G1_MulScalar bp_i w_i)) proof in
  get c_i <- index (Pk_C (Pk setup)) i;
  let proof := set_PiC (G1_Add (PiC proof) (G1_MulScalar c_i w_i)) proof in
  get cp_i <- index (Pk_Cp (Pk setup)) i;
  let proof := set_PiCp (G1_Add (PiCp proof) (G1_MulScalar cp_i w_i)) proof in
  get kp_i <- index (Pk_Kp (Pk setup)) i;
  let proof := set_PiKp (G1_Add (PiKp proof) (G1_MulScalar kp_i w_i)) proof in
  Continue proof.

(** Body of the loop of lines 209-211. *)
Definition Generate_h (setup : PinocchioSetup) (hx : Poly) (i : Z)
    (proof : PinocchioProof) : ctl PinocchioProof (Proof * option error) :=
  get g_i <- index (G1T setup) i;
  get hx_i <- index hx i;
  Continue (set_PiH (G1_Add (PiH proof) (G1_MulScalar g_i hx_i)) proof).

(** [func (setup *PinocchioSetup) Generate(cir, w, px) (Proof, error)] *)
Definition Generate (setup : PinocchioSetup) (cir : Circuit) (w px : list big)
  : outcome (Proof * option error) :=
  run (
    let proof := new_proof in
    do proof <- for_range (int_wrap (NPublic cir + 1)) (NVars cir)
                  (Generate_private setup w) proof;
    do proof <- for_range 0 (NVars cir) (Generate_all setup w) proof;
    let hx := PF_DivisorPolynomial px (Pk_Z (Pk setup)) in
    do proof <- for_range 0 (len hx) (Generate_h setup hx) proof;
    Return (PinocchioP proof, None)).

Context {Pr : PairingOps}.

(** Body of the loop of lines 244-246. *)
Definition Verify_vkx (setup : PinocchioSetup) (publicSignals : list big) (i : Z)
    (vkxpia : G1Point) : ctl G1Point (bool * option error) :=
  get ic <- index (Vk_IC (Vk setup)) (i + 1);
  get s_i <- index publicSignals i;
  Continue (G1_Add vkxpia (G1_MulScalar ic s_i)).

(** [func (setup *PinocchioSetup) Verify(proof, publicSignals) (bool, error)] *)
Definition Verify (setup : PinocchioSetup) (proof : Proof) (publicSignals : list big)
  : outcome (bool * option error) :=
  run (
    match proof with
    | ForeignP _ => Return (false, Some "bad proof type"%string)
    | PinocchioP pproof =>
      let pairingPiaVa := Bn_Pairing (PiA pproof) (Vk_Vka (Vk setup)) in
      let pairingPiapG2 := Bn_Pairing (PiAp pproof) G2_G in
      if negb (Fq12_Equal pairingPiaVa pairingPiapG2) then Return (false, None) else
      let pairingVbPib := Bn_Pairing (Vk_Vkb (Vk setup)) (PiB pproof) in
      let pairingPibpG2 := Bn_Pairing (PiBp pproof) G2_G in
      if negb (Fq12_Equal pairingVbPib pairingPibpG2) then Return (false, None) else
      let pairingPicVc := Bn_Pairing (PiC pproof) (Vk_Vkc (Vk setup)) in
      let pairingPicpG2 := Bn_Pairing (PiCp pproof) G2_G in
      if negb (Fq12_Equal pairingPicVc pairingPicpG2) then Return (false, None) else
      get vkxpia <- index (Vk_IC (Vk setup)) 0;
      do vkxpia <- for_range 0 (len publicSignals)
                     (Verify_vkx setup publicSignals) vkxpia;
      if negb (Fq12_Equal
                 (Bn_Pairing (G1_Add vkxpia (PiA pproof)) (PiB pproof))
                 (Fq12_Mul
                    (Bn_Pairing (PiH pproof) (Vk_Vkz (Vk setup)))
                    (Bn_Pairing (PiC pproof) G2_G)))
      then Return (false, None) else
      let piapic := G1_Add (G1_Add vkxpia (PiA pproof)) (PiC pproof) in
      let pairingPiACG2Kbg := Bn_Pairing piapic (Vk_G2Kbg (Vk setup)) in
      let pairingG1KbgPiB := Bn_Pairing (Vk_G1Kbg (Vk setup)) (PiB pproof) in
      let pairingL := Fq12_Mul pairingPiACG2Kbg pairingG1KbgPiB in
      let pairingR := Bn_Pairing (PiKp pproof) (Vk_G2Kg (Vk setup)) in
      if negb (Fq12_Equal pairingL pairingR) then Return (false, None) else
      Return (true, None)
    end).

End Embedding.

(** ** The helpers, modelled from the specification

    The packages behind [Utils] are described by the specification
    (sections 3, 4.1-4.5 and 6).  This module follows that description; it
    gives the classes above an instance on which the three functions run on
    concrete inputs. *)

Module SpecModel.

(** Modelled from the spec: section 6, the modulus q of the base field Fq. *)
Definition q : Z :=
  21888242871839275222246405745257275088696311157297823662689037894645226208583.
(** Modelled from the spec: section 6, the modulus r of the scalar field Fr. *)
Definition r : Z :=
  21888242871839275222246405745257275088548364400416034343698204186575808495617.

(** Modelled from the spec: section 4.1, the operations a field exposes, as
    far as the curve formulas use them. *)
Record FieldOps (T : Type) : Type := mkFieldOps {
  f_zero : T;
  f_one : T;
  f_add : T -> T -> T;
  f_sub : T -> T -> T;
  f_mul : T -> T -> T;
  f_eqb : T -> T -> bool
}.

Section PrimeField.

Variable p : Z.

(** Modelled from the spec: section 4.1, add; every operation reduces
    mod p. *)
Definition fp_add (a b : big) : big := (a + b) mod p.
(** Modelled from the spec: section 4.1, sub. *)
Definition fp_sub (a b : big) : big := (a - b) mod p.
(** Modelled from the spec: section 4.1, mul. *)
Definition fp_mul (a b : big) : big := (a * b) mod p.
(** Modelled from the spec: section 4.1, neg. *)
Definition fp_neg (a : big) : big := (- a) mod p.

(** Modelled from the spec: section 4.1, inverse by the extended Euclidean
    algorithm.  [egcd n a b x0 x1] keeps [x0 * c = a] and [x1 * c = b]
    modulo p for the element [c] being inverted. *)
Fixpoint egcd (n : nat) (a b x0 x1 : Z) : Z :=
  match n with
  | O => x0
  | Datatypes.S n' =>
      if b =? 0 then x0
      else egcd n' b (a mod b) x1 (x0 - (a / b) * x1)
  end.

(** Modelled from the spec: section 4.1, inverse; the inverse of zero, an error
    there, is 0 here. *)
Definition fp_inv (a : big) : big :=
  egcd (Z.to_nat (2 * Z.log2 p + 2)) (a mod p) p 1 0 mod p.

(** Modelled from the spec: the prime field of modulus p with its operations. *)
Definition Fp : FieldOps big :=
  mkFieldOps 0 1 fp_add fp_sub fp_mul Z.eqb.

(** Modelled from the spec: section 3, Fq2 is a + b u with u^2 = -1;
    addition is coefficient-wise. *)
Definition fp2_add (a b : Fq2E) : Fq2E :=
  (fp_add (fst a) (fst b), fp_add (snd a) (snd b)).
(** Modelled from the spec: Fq2 subtraction, coefficient-wise. *)
Definition fp2_sub (a b : Fq2E) : Fq2E :=
  (fp_sub (fst a) (fst b), fp_sub (snd a) (snd b)).
(** Modelled from the spec: section 4.1, (a+bu)(c+du) = (ac-bd) + (ad+bc)u. *)
Definition fp2_mul (a b : Fq2E) : Fq2E :=
  (fp_sub (fp_mul (fst a) (fst b)) (fp_mul (snd a) (snd b)),
   fp_add (fp_mul (fst a) (snd b)) (fp_mul (snd a) (fst b))).
(** Modelled from the spec: section 4.1, equality: both coefficients equal. *)
Definition fp2_eqb (a b : Fq2E) : bool :=
  (fst a =? fst b) && (snd a =? snd b).

(** Modelled from the spec: the field Fq2 with its operations. *)
Definition Fp2 : FieldOps Fq2E :=
  mkFieldOps (0, 0) (1, 0) fp2_add fp2_sub fp2_mul fp2_eqb.

End PrimeField.

(** The curve groups of sections 3 and 4.2, over any field: points in
    Jacobian coordinates (X, Y, Z). *)
Section Jacobian.

Context {T : Type} (K : FieldOps T).

Local Notation "a +f b" := (f_add K a b) (at level 50, left associativity).
Local Notation "a -f b" := (f_sub K a b) (at level 50, left associativity).
Local Notation "a *f b" := (f_mul K a b) (at level 40, left associativity).

(** Modelled from the spec: section 3, the point at infinity, canonically
    (0, 1, 0). *)
Definition jac_zero : T * T * T := (f_zero K, f_one K, f_zero K).

(** Modelled from the spec: section 3, infinity is any triple with Z = 0. *)
Definition jac_is_zero (P : T * T * T) : bool :=
  let '(_, _, z) := P in f_eqb K z (f_zero K).

(** Modelled from the spec: section 4.2, doubling by the dbl-2009-l
    formulas. *)
Definition jac_double (P : T * T * T) : T * T * T :=
  if jac_is_zero P then P else
  let '(x1, y1, z1) := P in
  let a := x1 *f x1 in
  let b := y1 *f y1 in
  let c := b *f b in
  let t := (x1 +f b) *f (x1 +f b) -f a -f c in
  let d := t +f t in
  let e := a +f a +f a in
  let f := e *f e in
  let x3 := f -f (d +f d) in
  let c8 := let c2 := c +f c in let c4 := c2 +f c2 in c4 +f c4 in
  let y3 := e *f (d -f x3) -f c8 in
  let z3 := let yz := y1 *f z1 in yz +f yz in
  (x3, y3, z3).

(** Modelled from the spec: section 4.2, addition by the add-2007-bl formulas
    with the two short cuts: infinity returns the other operand, equal
    operands go to doubling. *)
Definition jac_add (P1 P2 : T * T * T) : T * T * T :=
  if jac_is_zero P1 then P2 else
  if jac_is_zero P2 then P1 else
  let '(x1, y1, z1) := P1 in
  let '(x2, y2, z2) := P2 in
  let z1z1 := z1 *f z1 in
  let z2z2 := z2 *f z2 in
  let u1 := x1 *f z2z2 in
  let u2 := x2 *f z1z1 in
  let s1 := y1 *f z2 *f z2z2 in
  let s2 := y2 *f z1 *f z1z1 in
  if f_eqb K u1 u2 && f_eqb K s1 s2 then jac_double P1 else
  let h := u2 -f u1 in
  let i := (h +f h) *f (h +f h) in
  let j := h *f i in
  let rr := (s2 -f s1) +f (s2 -f s1) in
  let v := u1 *f i in
  let x3 := rr *f rr -f j -f (v +f v) in
  let s1j := s1 *f j in
  let y3 := rr *f (v -f x3) -f (s1j +f s1j) in
  let z3 := ((z1 +f z2) *f (z1 +f z2) -f z1z1 -f z2z2) *f h in
  (x3, y3, z3).

(** Modelled from the spec: section 4.2, left-to-right double-and-add on the
    binary expansion of the scalar (the recursion reaches the top bit
    first). *)
Fixpoint jac_mul_pos (base : T * T * T) (e : positive) : T * T * T :=
  match e with
  | xH => base
  | xO e' => jac_double (jac_mul_pos base e')
  | xI e' => jac_add (jac_double (jac_mul_pos base e')) base
  end.

(** Modelled from the spec: section 4.2, scalar multiplication; the scalar 0
    gives infinity. *)
Definition jac_mul (base : T * T * T) (e : Z) : T * T * T :=
  match e with
  | Zpos e' => jac_mul_pos base e'
  | _ => jac_zero
  end.

End Jacobian.

(** Modelled from the spec: section 3, affine normalization divides by Z
    (x = X/Z^2, y = Y/Z^3 in Jacobian coordinates), one inversion per call;
    the affine form is the pair that [Fq2.Equal] compares in [Init]. *)
Definition g1_affine (p : Z) (P : G1Point) : Fq2E :=
  if jac_is_zero (Fp p) P then (0, 0) else
  let '(x, y, z) := P in
  let zinv := fp_inv p z in
  let zinv2 := fp_mul p zinv zinv in
  (fp_mul p x zinv2, fp_mul p y (fp_mul p zinv2 zinv)).

(** Modelled from the spec: section 6 gives the curve Y^2 = X^3 + 3 of G1
    and no generator; the constant [Utils.Bn.G1.G] is taken to be its point
    (1, 2). *)
Definition g1_gen : G1Point := (1, 2, 1).

(** Modelled from the spec: section 6 gives the twist Y^2 = X^3 + 3/(9+u)
    of G2 and no generator; the constant [Utils.Bn.G2.G] is taken to be this
    point of it. *)
Definition g2_gen : G2Point :=
  ((10857046999023057135944570762232829481370756359578518086990519993285655852781,
    11559732032986387107991004021392285783925812861821192530917403151452391805634),
   (8495653923123431417604973247489272438418190587263600148770280649306958101930,
    4082367875863433681332203403145435568316851327593401208105741076214120093531),
   (1, 0)).

(** Modelled from the spec: the bundle [Utils.Bn] over the base field of
    modulus [p]; the zero of Fq6 is the zero tuple. *)
Definition SpecCurve (p : Z) : Curve :=
  {| G1_F_Zero := 0;
     G1_G := g1_gen;
     G1_Add := jac_add (Fp p);
     G1_MulScalar := jac_mul (Fp p);
     G1_Affine := g1_affine p;
     G2_G := g2_gen;
     G2_Add := jac_add (Fp2 p);
     G2_MulScalar := jac_mul (Fp2 p);
     Fq2_Equal := fp2_eqb;
     Fq6_Zero := ((0, 0), (0, 0), (0, 0)) |}.

(** The polynomials of sections 3 and 4.4: a polynomial is the sequence of
    its coefficients, index i holding the coefficient of x^i. *)
Section Polynomials.

Variable p : Z.

(** Modelled from the spec: section 4.4, evaluation at a point by Horner's
    rule. *)
Fixpoint pf_eval (f : Poly) (x : big) : big :=
  match f with
  | [] => 0
  | a :: f' => fp_add p a (fp_mul p x (pf_eval f' x))
  end.

(** Modelled from the spec: section 4.4, normalization strips trailing
    zeros. *)
Fixpoint pf_normalize (f : Poly) : Poly :=
  match f with
  | [] => []
  | a :: f' =>
      match pf_normalize f' with
      | [] => if a =? 0 then [] else [a]
      | g => a :: g
      end
  end.

(** Modelled from the spec: section 3, the last entry of a normalized
    polynomial is its leading coefficient; the degree is its index. *)
Definition pf_degree (f : Poly) : nat := (length (pf_normalize f) - 1)%nat.

(** Modelled from the spec: section 4.4, add, before normalization. *)
Fixpoint pf_add_raw (f g : Poly) : Poly :=
  match f, g with
  | [], _ => g
  | _, [] => f
  | a :: f', b :: g' => fp_add p a b :: pf_add_raw f' g'
  end.

(** Modelled from the spec: section 4.4, sub, before normalization. *)
Fixpoint pf_sub_raw (f g : Poly) : Poly :=
  match f, g with
  | [], _ => map (fp_neg p) g
  | _, [] => f
  | a :: f', b :: g' => fp_sub p a b :: pf_sub_raw f' g'
  end.

(** Modelled from the spec: section 4.4, schoolbook mul, before
    normalization. *)
Fixpoint pf_mul_raw (f g : Poly) : Poly :=
  match f with
  | [] => []
  | a :: f' => pf_add_raw (map (fp_mul p a) g) (0 :: pf_mul_raw f' g)
  end.

(** Modelled from the spec: section 4.4, add. *)
Definition pf_add (f g : Poly) : Poly := pf_normalize (pf_add_raw f g).
(** Modelled from the spec: section 4.4, sub. *)
Definition pf_sub (f g : Poly) : Poly := pf_normalize (pf_sub_raw f g).
(** Modelled from the spec: section 4.4, mul. *)
Definition pf_mul (f g : Poly) : Poly := pf_normalize (pf_mul_raw f g).

(** Modelled from the spec: section 4.4, long division; one round cancels
    the leading term of the remainder, and the quotient is collected from
    its top coefficient down. *)
Fixpoint pf_div_loop (n : nat) (rem z quo : Poly) : Poly * Poly :=
  match n with
  | O => (quo, rem)
  | Datatypes.S n' =>
      if (length rem <? length z)%nat then (quo, rem) else
      let l := fp_mul p (last rem 0) (fp_inv p (last z 0)) in
      let pos := (length rem - length z)%nat in
      let shifted := repeat 0 pos ++ map (fp_mul p l) z in
      pf_div_loop n' (removelast (pf_sub_raw rem shifted)) z (l :: quo)
  end.

(** Modelled from the spec: section 4.4, long division returning quotient
    and remainder; dividing by the zero polynomial gives the quotient 0. *)
Definition pf_div (f z : Poly) : Poly * Poly :=
  let f := pf_normalize f in
  let z := pf_normalize z in
  match z with
  | [] => ([], f)
  | _ =>
      let '(quo, rem) := pf_div_loop (length f) f z [] in
      (pf_normalize quo, pf_normalize rem)
  end.

(** Modelled from the spec: section 4.4, [DivisorPolynomial(p, Z)]
    returns the quotient h and drops the remainder. *)
Definition pf_divisor_polynomial (f z : Poly) : Poly := fst (pf_div f z).

(** Modelled from the spec: section 4.4, the factor (x - k) / (i - k) of a
    Lagrange basis polynomial. *)
Definition lagrange_factor (i k : Z) : Poly :=
  let d := fp_inv p (fp_sub p i k) in
  [fp_mul p (fp_neg p k) d; d].

(** Modelled from the spec: section 4.4, the basis polynomial of the
    point i among 1, ..., m. *)
Definition lagrange_basis (m : nat) (i : Z) : Poly :=
  fold_left
    (fun acc k => if Z.of_nat k =? i then acc
                  else pf_mul acc (lagrange_factor i (Z.of_nat k)))
    (seq 1 m) [1].

(** Modelled from the spec: section 4.4, Lagrange interpolation on the
    ordered points 1, 2, ..., m: the polynomial through (i, ys[i-1]). *)
Definition pf_lagrange (ys : list big) : Poly :=
  fold_left
    (fun acc iy =>
       pf_add acc (pf_mul [snd iy mod p] (lagrange_basis (length ys) (Z.of_nat (fst iy)))))
    (combine (seq 1 (length ys)) ys) [].

(** Modelled from the spec: section 3, an R1CS matrix has one row per
    constraint and one column per signal; this is column j. *)
Definition column (M : list (list big)) (j : nat) : list big :=
  map (fun row => nth j row 0) M.

(** Modelled from the spec: the columns of an R1CS matrix, in order. *)
Definition columns (M : list (list big)) : list (list big) :=
  match M with
  | [] => []
  | row :: _ => map (column M) (seq 0 (length row))
  end.

(** Modelled from the spec: section 4.5, the R1CS to QAP reduction:
    column j of each matrix is interpolated through the points (i, M[i][j]). *)
Definition R1CSToQAP (a b c : list (list big))
  : list Poly * list Poly * list Poly :=
  (map pf_lagrange (columns a), map pf_lagrange (columns b),
   map pf_lagrange (columns c)).

(** Modelled from the spec: section 4.5, the combination
    sum_j w_j alpha_j(x). *)
Definition pf_lincomb (w : list big) (ps : list Poly) : Poly :=
  fold_left (fun acc wp => pf_add acc (pf_mul [fst wp mod p] (snd wp)))
            (combine w ps) [].

(** Modelled from the spec: section 4.5, the combine step
    p(x) = A(x) B(x) - C(x). *)
Definition CombinePolynomials (w : list big) (alphas betas gammas : list Poly)
  : Poly :=
  pf_sub (pf_mul (pf_lincomb w alphas) (pf_lincomb w betas))
         (pf_lincomb w gammas).

(** Modelled from the spec: the bundles [Utils.FqR] and [Utils.PF] over
    the scalar field of modulus [p]. *)
Definition SpecFields : Fields :=
  {| FqR_Add := fp_add p;
     FqR_Mul := fp_mul p;
     FqR_Neg := fp_neg p;
     PF_Eval := pf_eval;
     PF_Mul := pf_mul;
     PF_DivisorPolynomial := pf_divisor_polynomial |}.

End Polynomials.

End SpecModel.

(** A target group kept symbolic: a pairing value is the term that built
    it, and two values are equal when the terms are.  It lets [Verify] run
    on concrete inputs without fixing the pairing. *)
Module FreePairing.

Inductive GTerm : Type :=
| GT_pair (P : G1Point) (Q : G2Point)
| GT_mul (a b : GTerm).

Definition g1_eqb (P Q : G1Point) : bool :=
  let '(x1, y1, z1) := P in
  let '(x2, y2, z2) := Q in
  (x1 =? x2) && (y1 =? y2) && (z1 =? z2).

Definition g2_eqb (P Q : G2Point) : bool :=
  let '(x1, y1, z1) := P in
  let '(x2, y2, z2) := Q in
  SpecModel.fp2_eqb x1 x2 && SpecModel.fp2_eqb y1 y2 && SpecModel.fp2_eqb z1 z2.

Fixpoint gterm_eqb (a b : GTerm) : bool :=
  match a, b with
  | GT_pair P Q, GT_pair P' Q' => g1_eqb P P' && g2_eqb Q Q'
  | GT_mul a1 a2, GT_mul b1 b2 => gterm_eqb a1 b1 && gterm_eqb a2 b2
  | _, _ => false
  end.

Definition Ops : PairingOps :=
  {| Fq12E := GTerm;
     Bn_Pairing := GT_pair;
     Fq12_Mul := GT_mul;
     Fq12_Equal := gterm_eqb |}.

End FreePairing.

(** ** What the specification says, in the terms of the embedding *)

(** The indices [i] with [lo <= i < hi], in increasing order. *)
Definition indices_between (lo hi : Z) : list nat :=
  seq (Z.to_nat lo) (Z.to_nat (hi - lo)).

Section Specification.

Context {F : Fields} {Cv : Curve}.

(** The sum of [ws[i] * pts[i]] over the indices [idx], added in that order
    onto [init]. *)
Definition sumG1 (pts : list G1Point) (ws : list big) (idx : list nat)
    (init : G1Point) : G1Point :=
  fold_left
    (fun acc i => G1_Add acc (G1_MulScalar (nth i pts zeroG1) (nth i ws 0)))
    idx init.

Definition sumG2 (pts : list G2Point) (ws : list big) (idx : list nat)
    (init : G2Point) : G2Point :=
  fold_left
    (fun acc i => G2_Add acc (G2_MulScalar (nth i pts zeroG2) (nth i ws 0)))
    idx init.

(** A point is at infinity when its Z coordinate is zero. *)
Definition G1_infinity (P : G1Point) : Prop := let '(_, _, z) := P in z = 0.
Definition G2_infinity (P : G2Point) : Prop := let '(_, _, z) := P in z = (0, 0).

(** The proof [Generate] builds when no index leaves its slice. *)
Definition Generate_result (setup : PinocchioSetup) (cir : Circuit)
    (w px : list big) : PinocchioProof :=
  let private := indices_between (NPublic cir + 1) (NVars cir) in
  let all := indices_between 0 (NVars cir) in
  let hx := PF_DivisorPolynomial px (Pk_Z (Pk setup)) in
  {| PiA := sumG1 (Pk_A (Pk setup)) w private (PiA new_proof);
     PiAp := sumG1 (Pk_Ap (Pk setup)) w private (PiAp new_proof);
     PiB := sumG2 (Pk_B (Pk setup)) w all (PiB new_proof);
     PiBp := sumG1 (Pk_Bp (Pk setup)) w all (PiBp new_proof);
     PiC := sumG1 (Pk_C (Pk setup)) w all (PiC new_proof);
     PiCp := sumG1 (Pk_Cp (Pk setup)) w all (PiCp new_proof);
     PiH := sumG1 (G1T setup) hx (indices_between 0 (len hx)) (PiH new_proof);
     PiKp := sumG1 (Pk_Kp (Pk setup)) w all (PiKp new_proof) |}.

(** The slices [Generate] reads are long enough for the circuit. *)
Record Generate_in_range (setup : PinocchioSetup) (cir : Circuit)
    (w px : list big) : Prop := {
  gir_public : 0 <= NPublic cir < 2 ^ 63 - 1;
  gir_A : NVars cir <= len (Pk_A (Pk setup));
  gir_Ap : NVars cir <= len (Pk_Ap (Pk setup));
  gir_B : NVars cir <= len (Pk_B (Pk setup));
  gir_Bp : NVars cir <= len (Pk_Bp (Pk setup));
  gir_C : NVars cir <= len (Pk_C (Pk setup));
  gir_Cp : NVars cir <= len (Pk_Cp (Pk setup));
  gir_Kp : NVars cir <= len (Pk_Kp (Pk setup));
  gir_w : NVars cir <= len w;
  gir_H : len (PF_DivisorPolynomial px (Pk_Z (Pk setup))) <= len (G1T setup)
}.

(** The toxic scalars of a run of [Init] whose eight draws succeed: draw
    [k] is the value of call [k] of [Rand], and RhoC their product. *)
Definition drawn (rand : RandT) : ToxicT :=
  {| Toxic_T := fst (rand 0%nat);
     Toxic_Ka := fst (rand 1%nat);
     Toxic_Kb := fst (rand 2%nat);
     Toxic_Kc := fst (rand 3%nat);
     Toxic_Kbeta := fst (rand 4%nat);
     Toxic_Kgamma := fst (rand 5%nat);
     Toxic_RhoA := fst (rand 6%nat);
     Toxic_RhoB := fst (rand 7%nat);
     Toxic_RhoC := FqR_Mul (fst (rand 6%nat)) (fst (rand 7%nat)) |}.

Definition rand_ok (rand : RandT) : Prop :=
  forall k, (k < 8)%nat -> snd (rand k) = None.

(** The points of one signal, from its three polynomials. *)
Definition pk_a (tox : ToxicT) (alpha : Poly) : G1Point :=
  G1_MulScalar G1_G (FqR_Mul (Toxic_RhoA tox) (PF_Eval alpha (Toxic_T tox))).

Definition pk_b1 (tox : ToxicT) (beta : Poly) : G1Point :=
  G1_MulScalar G1_G (FqR_Mul (Toxic_RhoB tox) (PF_Eval beta (Toxic_T tox))).

Definition pk_b2 (tox : ToxicT) (beta : Poly) : G2Point :=
  G2_MulScalar G2_G (FqR_Mul (Toxic_RhoB tox) (PF_Eval beta (Toxic_T tox))).

Definition pk_c (tox : ToxicT) (gamma : Poly) : G1Point :=
  G1_MulScalar G1_G (FqR_Mul (Toxic_RhoC tox) (PF_Eval gamma (Toxic_T tox))).

(** k_t = rhoA alpha(t) + rhoB beta(t) + rhoC gamma(t) *)
Definition k_t (tox : ToxicT) (alpha beta gamma : Poly) : big :=
  FqR_Add
    (FqR_Add (FqR_Mul (Toxic_RhoA tox) (PF_Eval alpha (Toxic_T tox)))
             (FqR_Mul (Toxic_RhoB tox) (PF_Eval beta (Toxic_T tox))))
    (FqR_Mul (Toxic_RhoC tox) (PF_Eval gamma (Toxic_T tox))).

(** The consistency check of a signal: the affine form of k_t G1 against
    the affine form of A[i] + B_G1[i] + C[i]. *)
Definition consistent (tox : ToxicT) (alpha beta gamma : Poly) : bool :=
  Fq2_Equal
    (G1_Affine (G1_MulScalar G1_G (k_t tox alpha beta gamma)))
    (G1_Affine (G1_Add (G1_Add (pk_a tox alpha) (pk_b1 tox beta)) (pk_c tox gamma))).

Definition pk_ap (tox : ToxicT) (alpha : Poly) : G1Point :=
  G1_MulScalar (pk_a tox alpha) (Toxic_Ka tox).

Definition pk_bp (tox : ToxicT) (beta : Poly) : G1Point :=
  G1_MulScalar (pk_b1 tox beta) (Toxic_Kb tox).

Definition pk_cp (tox : ToxicT) (gamma : Poly) : G1Point :=
  G1_MulScalar (pk_c tox gamma) (Toxic_Kc tox).

Definition pk_kp (tox : ToxicT) (alpha beta gamma : Poly) : G1Point :=
  G1_MulScalar (G1_MulScalar G1_G (k_t tox alpha beta gamma)) (Toxic_Kbeta tox).

(** The setup after the rows of the signals [idx] have been appended. *)
Definition Init_rows (tox : ToxicT) (cir : Circuit) (alphas betas gammas : list Poly)
    (idx : list nat) (s : PinocchioSetup) : PinocchioSetup :=
  let al i := nth i alphas [] in
  let be i := nth i betas [] in
  let ga i := nth i gammas [] in
  {| Toxic := Toxic s;
     G1T := G1T s;
     G2T := G2T s;
     Pk := {| Pk_A := Pk_A (Pk s) ++ map (fun i => pk_a tox (al i)) idx;
              Pk_B := Pk_B (Pk s) ++ map (fun i => pk_b2 tox (be i)) idx;
              Pk_C := Pk_C (Pk s) ++ map (fun i => pk_c tox (ga i)) idx;
              Pk_Kp := Pk_Kp (Pk s) ++
                       map (fun i => pk_kp tox (al i) (be i) (ga i)) idx;
              Pk_Ap := Pk_Ap (Pk s) ++ map (fun i => pk_ap tox (al i)) idx;
              Pk_Bp := Pk_Bp (Pk s) ++ map (fun i => pk_bp tox (be i)) idx;
              Pk_Cp := Pk_Cp (Pk s) ++ map (fun i => pk_cp tox (ga i)) idx;
              Pk_Z := Pk_Z (Pk s) |};
     Vk := set_IC
             (Vk_IC (Vk s) ++
              map (fun i => pk_a tox (al i))
                  (filter (fun i => Z.of_nat i <=? NPublic cir) idx))
             (Vk s) |}.

(** The setup when the check of signal [j] has just failed: its A, B and C
    entries are in (and its IC entry when [j <= NPublic]), its shifted and
    combined entries are not. *)
Definition Init_half_row (tox : ToxicT) (cir : Circuit)
    (alphas betas gammas : list Poly) (j : nat) (s : PinocchioSetup)
  : PinocchioSetup :=
  {| Toxic := Toxic s;
     G1T := G1T s;
     G2T := G2T s;
     Pk := {| Pk_A := Pk_A (Pk s) ++ [pk_a tox (nth j alphas [])];
              Pk_B := Pk_B (Pk s) ++ [pk_b2 tox (nth j betas [])];
              Pk_C := Pk_C (Pk s) ++ [pk_c tox (nth j gammas [])];
              Pk_Kp := Pk_Kp (Pk s);
              Pk_Ap := Pk_Ap (Pk s);
              Pk_Bp := Pk_Bp (Pk s);
              Pk_Cp := Pk_Cp (Pk s);
              Pk_Z := Pk_Z (Pk s) |};
     Vk := set_IC
             (Vk_IC (Vk s) ++
              (if Z.of_nat j <=? NPublic cir then [pk_a tox (nth j alphas [])] else []))
             (Vk s) |}.

(** The setup once the toxic scalars are drawn and the six key points of
    lines 110-116 are stored. *)
Definition Init_keys (rand : RandT) (s : PinocchioSetup) : PinocchioSetup :=
  let tox := drawn rand in
  let kbg := FqR_Mul (Toxic_Kbeta tox) (Toxic_Kgamma tox) in
  {| Toxic := tox;
     G1T := G1T s;
     G2T := G2T s;
     Pk := Pk s;
     Vk := {| Vk_Vka := G2_MulScalar G2_G (Toxic_Ka tox);
              Vk_Vkb := G1_MulScalar G1_G (Toxic_Kb tox);
              Vk_Vkc := G2_MulScalar G2_G (Toxic_Kc tox);
              Vk_IC := Vk_IC (Vk s);
              Vk_G1Kbg := G1_MulScalar G1_G kbg;
              Vk_G2Kbg := G2_MulScalar G2_G kbg;
              Vk_G2Kg := G2_MulScalar G2_G (Toxic_Kgamma tox);
              Vk_Vkz := Vk_Vkz (Vk s) |} |}.

(** The polynomial the loop of lines 154-162 builds for [n = len(alphas)]:
    the factors (x - i) for i = 1, ..., n - 2, multiplied in from [1]. *)
Definition zpol_of (n : Z) : Poly :=
  fold_left (fun z i => PF_Mul z [FqR_Neg (Z.of_nat i); 1])
            (seq 1 (Z.to_nat (n - 2))) [1].

(** [tEncr] when the loop of lines 172-175 reaches index [k >= 1]: [t]
    multiplied by itself into the [k]-th power. *)
Fixpoint t_power (t : big) (k : nat) : big :=
  match k with
  | O => t
  | Datatypes.S O => t
  | Datatypes.S k' => FqR_Mul (t_power t k') t
  end.

Definition g1t_of (t : big) (zpol : Poly) : list G1Point :=
  G1_G :: map (fun k => G1_MulScalar G1_G (t_power t k)) (seq 1 (length zpol - 1)).

(** The setup a complete run of [Init] leaves. *)
Definition Init_result (rand : RandT) (setup : PinocchioSetup) (cir : Circuit)
    (alphas betas gammas : list Poly) : PinocchioSetup :=
  let tox := drawn rand in
  let s := Init_rows tox cir alphas betas gammas
             (seq 0 (length (Signals cir))) (Init_keys rand setup) in
  let zpol := zpol_of (len alphas) in
  {| Toxic := tox;
     G1T := g1t_of (Toxic_T tox) zpol;
     G2T := G2T s;
     Pk := set_Pk_Z zpol (Pk s);
     Vk := set_Vkz
             (G2_MulScalar G2_G (FqR_Mul (Toxic_RhoC tox) (PF_Eval zpol (Toxic_T tox))))
             (Vk s) |}.

(** What a complete run needs: the draws succeed, every signal has its
    three polynomials, and every consistency check passes. *)
Record Init_completes (rand : RandT) (cir : Circuit)
    (alphas betas gammas : list Poly) : Prop := {
  ic_rand : rand_ok rand;
  ic_alphas : (length (Signals cir) <= length alphas)%nat;
  ic_betas : (length (Signals cir) <= length betas)%nat;
  ic_gammas : (length (Signals cir) <= length gammas)%nat;
  ic_checks : forall i, (i < length (Signals cir))%nat ->
      consistent (drawn rand) (nth i alphas []) (nth i betas []) (nth i gammas []) = true
}.

Context {Pr : PairingOps}.

(** The public combination [IC[0] + sum_i publicSignals[i] * IC[i+1]]. *)
Definition Vkx (IC : list G1Point) (publicSignals : list big) : G1Point :=
  fold_left
    (fun acc i =>
       G1_Add acc (G1_MulScalar (nth (Datatypes.S i) IC zeroG1) (nth i publicSignals 0)))
    (seq 0 (length publicSignals)) (nth 0%nat IC zeroG1).

(** An equation between pairing values holds when [Fq12.Equal] says so. *)
Definition eq12 (x y : Fq12E) : Prop := Fq12_Equal x y = true.

Definition pairing_eq1 (setup : PinocchioSetup) (pi : PinocchioProof) : Prop :=
  eq12 (Bn_Pairing (PiA pi) (Vk_Vka (Vk setup))) (Bn_Pairing (PiAp pi) G2_G).

Definition pairing_eq2 (setup : PinocchioSetup) (pi : PinocchioProof) : Prop :=
  eq12 (Bn_Pairing (Vk_Vkb (Vk setup)) (PiB pi)) (Bn_Pairing (PiBp pi) G2_G).

Definition pairing_eq3 (setup : PinocchioSetup) (pi : PinocchioProof) : Prop :=
  eq12 (Bn_Pairing (PiC pi) (Vk_Vkc (Vk setup))) (Bn_Pairing (PiCp pi) G2_G).

Definition pairing_eq4 (setup : PinocchioSetup) (pi : PinocchioProof)
    (publicSignals : list big) : Prop :=
  let vkx := Vkx (Vk_IC (Vk setup)) publicSignals in
  eq12 (Bn_Pairing (G1_Add vkx (PiA pi)) (PiB pi))
       (Fq12_Mul (Bn_Pairing (PiH pi) (Vk_Vkz (Vk setup)))
                 (Bn_Pairing (PiC pi) G2_G)).

Definition pairing_eq5 (setup : PinocchioSetup) (pi : PinocchioProof)
    (publicSignals : list big) : Prop :=
  let vkx := Vkx (Vk_IC (Vk setup)) publicSignals in
  eq12 (Fq12_Mul
          (Bn_Pairing (G1_Add (G1_Add vkx (PiA pi)) (PiC pi)) (Vk_G2Kbg (Vk setup)))
          (Bn_Pairing (Vk_G1Kbg (Vk setup)) (PiB pi)))
       (Bn_Pairing (PiKp pi) (Vk_G2Kg (Vk setup))).

Definition five_equations (setup : PinocchioSetup) (pi : PinocchioProof)
    (publicSignals : list big) : Prop :=
  pairing_eq1 setup pi /\ pairing_eq2 setup pi /\ pairing_eq3 setup pi /\
  pairing_eq4 setup pi publicSignals /\ pairing_eq5 setup pi publicSignals.

End Specification.

(** Polynomials with integer coefficients, to name the target polynomial
    independently of the field helpers. *)
Fixpoint zadd (f g : list Z) : list Z :=
  match f, g with
  | [], _ => g
  | _, [] => f
  | a :: f', b :: g' => (a + b) :: zadd f' g'
  end.

(** [(x - i) * f]: from [(x - i) (a + x g) = - i a + x (a + (x - i) g)]. *)
Fixpoint x_minus (i : Z) (f : list Z) : list Z :=
  match f with
  | [] => []
  | a :: g => (- i * a) :: zadd [a] (x_minus i g)
  end.

(** The product of [(x - i)] for [i = 1, ..., k]. *)
Definition linear_product (k : nat) : list Z :=
  fold_left (fun f i => x_minus (Z.of_nat i) f) (seq 1 k) [1].

Fixpoint zeval (f : list Z) (x : Z) : Z :=
  match f with
  | [] => 0
  | a :: g => a + x * zeval g x
  end.

(** The value of the product of [(x - i)], [i = 1, ..., k], at a point. *)
Definition zprod (x : Z) (k : nat) : Z :=
  fold_left (fun acc i => acc * (x - Z.of_nat i)) (seq 1 k) 1.

(** The same product with its coefficients in the field of modulus [p]. *)
Definition target_polynomial (p : Z) (k : nat) : list Z :=
  map (fun c => c mod p) (linear_product k).

(** ** A small circuit to run the three functions on

    [out = x * x] with the public output [out] and the private input [x]:
    the signals are (one, out, x), the only constraint is x * x = out. *)
Module Demo.

Definition cir : Circuit :=
  {| NVars := 3; NPublic := 1; Signals := ["one"; "out"; "x"]%string |}.

Definition r1cs_a : list (list Z) := [[0; 0; 1]].
Definition r1cs_b : list (list Z) := [[0; 0; 1]].
Definition r1cs_c : list (list Z) := [[0; 1; 0]].

Definition fields : Fields := SpecModel.SpecFields SpecModel.r.
Definition curve : Curve := SpecModel.SpecCurve SpecModel.q.

Definition alphas : list (list Z) :=
  fst (fst (SpecModel.R1CSToQAP SpecModel.r r1cs_a r1cs_b r1cs_c)).
Definition betas : list (list Z) :=
  snd (fst (SpecModel.R1CSToQAP SpecModel.r r1cs_a r1cs_b r1cs_c)).
Definition gammas : list (list Z) :=
  snd (SpecModel.R1CSToQAP SpecModel.r r1cs_a r1cs_b r1cs_c).

(** The eight draws: t, ka, kb, kc, kbeta, kgamma, rhoA, rhoB. *)
Definition rand : RandT :=
  fun k => (nth k [5; 2; 3; 2; 2; 3; 2; 3] 0, None).

(** The setup [Init] leaves for these inputs, evaluated. *)
Definition setup : PinocchioSetup :=
  Eval vm_compute in
    @Init_result fields curve rand empty_setup cir alphas betas gammas.

(** x = 3 with out = 9, and the same with the output tampered to 10. *)
Definition w : list Z := [1; 9; 3].
Definition w_tampered : list Z := [1; 10; 3].
Definition w_long : list Z := [1; 9; 3; 7].

Definition px : list Z :=
  SpecModel.CombinePolynomials SpecModel.r w alphas betas gammas.
Definition px_tampered : list Z :=
  SpecModel.CombinePolynomials SpecModel.r w_tampered alphas betas gammas.

(** The proof of the honest witness, evaluated. *)
Definition proof : PinocchioProof :=
  Eval vm_compute in @Generate_result fields curve setup cir w px.

(** The same circuit over a scalar field of modulus 7 (a small prime), with
    draws that keep every scalar below 7. *)
Definition fields7 : Fields := SpecModel.SpecFields 7.
Definition alphas7 : list (list Z) :=
  fst (fst (SpecModel.R1CSToQAP 7 r1cs_a r1cs_b r1cs_c)).
Definition betas7 : list (list Z) :=
  snd (fst (SpecModel.R1CSToQAP 7 r1cs_a r1cs_b r1cs_c)).
Definition gammas7 : list (list Z) :=
  snd (SpecModel.R1CSToQAP 7 r1cs_a r1cs_b r1cs_c).
Definition rand7 : RandT :=
  fun k => (nth k [3; 2; 2; 2; 2; 2; 1; 1] 0, None).

(** Draws whose combined scalar wraps around modulo 7 while the curve group
    has another order: the consistency check of signal 0 fails. *)
Definition one_signal : Circuit :=
  {| NVars := 1; NPublic := 0; Signals := ["one"]%string |}.
Definition rand_wrap : RandT :=
  fun k => (nth k [1; 2; 2; 2; 2; 2; 3; 4] 0, None).

End Demo.

(** [func (setup *PinocchioSetup) Z() []*big.Int] (lines 64-66). *)
Definition PinocchioSetup_Z (setup : PinocchioSetup) : list Z := Pk_Z (Pk setup).

(** ** Inputs at the edges of the three functions *)
Module Edge.

(** Draws of which the fourth (Kc) fails. *)
Definition rand_failing : RandT :=
  fun k => (nth k [5; 2; 3; 2; 2; 3; 2; 3] 0,
            if (k =? 3)%nat then Some "no entropy"%string else None).

(** The demo QAP with the polynomials of the last signal missing from
    [alphas]. *)
Definition alphas_short : list (list Z) := firstn 2 Demo.alphas.

(** The demo circuit with NPublic at the top of the [int] range. *)
Definition cir_wrap : Circuit :=
  {| NVars := 3; NPublic := 2 ^ 63 - 1; Signals := ["one"; "out"; "x"]%string |}.

(** x^3: its quotient by the demo target x - 1 has three coefficients,
    one more than [G1T] has entries. *)
Definition px_cubic : list Z := [0; 0; 0; 1].

(** The zero-value setup after the draws T, Ka, Kb and the failed Kc. *)
Definition setup_after_failed_draw : PinocchioSetup :=
  upd_Toxic (fun _ => mkToxic 5 2 3 2 0 0 0 0 0) empty_setup.

(** The demo circuit with other signal names and NVars left at zero. *)
Definition cir_renamed : Circuit :=
  {| NVars := 0; NPublic := 1; Signals := ["a"; "b"; "c"]%string |}.

End Edge.

(** ** Loops and slices *)

Lemma index_nth (A : Type) (l : list A) (i : nat) (d : A) :
  (i < length l)%nat -> index l (Z.of_nat i) = Some (nth i l d).
Proof.
  intros Hi. unfold index.
  destruct (Z.of_nat i <? 0) eqn:E; [apply Z.ltb_lt in E; lia|].
  rewrite Nat2Z.id. now apply nth_error_nth'.
Qed.

Lemma index_none_high (A : Type) (l : list A) (i : Z) :
  len l <= i -> index l i = None.
Proof.
  unfold index, len. intros Hi.
  destruct (i <? 0) eqn:E; [reflexivity|].
  apply Z.ltb_ge in E. apply nth_error_None. lia.
Qed.

Lemma int_wrap_id (z : Z) : int_ok z -> int_wrap z = z.
Proof.
  unfold int_ok, int_wrap. intros H.
  rewrite Z.mod_small; lia.
Qed.

(** A loop whose body never returns early ends by falling through or by a
    panic. *)
Lemma for_loop_no_return (S R : Type) (body : Z -> S -> ctl S R) :
  (forall i s r, body i s <> Return r) ->
  forall n i s r, for_loop n i body s <> Return r.
Proof.
  intros Hb n. induction n as [|n IH]; intros i s r; simpl.
  - discriminate.
  - destruct (body i s) eqn:E.
    + apply IH.
    + exfalso. eapply Hb; eauto.
    + discriminate.
Qed.

Lemma in_indices_between (lo hi : Z) (i : nat) :
  0 <= lo -> (In i (indices_between lo hi) <-> lo <= Z.of_nat i < hi).
Proof.
  intros Hlo. unfold indices_between. rewrite in_seq. lia.
Qed.

(** ** The prover *)

Section GenerateFacts.

Context {F : Fields} {Cv : Curve}.

Lemma Generate_private_no_return setup w i proof r :
  Generate_private setup w i proof <> Return r.
Proof.
  unfold Generate_private.
  repeat match goal with |- context [match ?o with _ => _ end] => destruct o end;
    discriminate.
Qed.

Lemma Generate_all_no_return setup w i proof r :
  Generate_all setup w i proof <> Return r.
Proof.
  unfold Generate_all.
  repeat match goal with |- context [match ?o with _ => _ end] => destruct o end;
    discriminate.
Qed.

Lemma Generate_h_no_return setup hx i proof r :
  Generate_h setup hx i proof <> Return r.
Proof.
  unfold Generate_h.
  repeat match goal with |- context [match ?o with _ => _ end] => destruct o end;
    discriminate.
Qed.

Lemma Generate_private_loop setup w n : forall lo proof,
  (lo + n <= length (Pk_A (Pk setup)))%nat ->
  (lo + n <= length (Pk_Ap (Pk setup)))%nat ->
  (lo + n <= length w)%nat ->
  for_loop n (Z.of_nat lo) (Generate_private setup w) proof =
  Continue
    (set_PiAp (sumG1 (Pk_Ap (Pk setup)) w (seq lo n) (PiAp proof))
       (set_PiA (sumG1 (Pk_A (Pk setup)) w (seq lo n) (PiA proof)) proof)).
Proof.
  induction n as [|n IH]; intros lo proof HA HAp Hw.
  - destruct proof; reflexivity.
  - simpl for_loop. unfold Generate_private at 1.
    rewrite (@index_nth _ _ _ zeroG1) by lia.
    rewrite (@index_nth _ _ _ 0) by lia.
    rewrite (@index_nth _ _ _ zeroG1) by lia.
    replace (Z.of_nat lo + 1) with (Z.of_nat (Datatypes.S lo)) by lia.
    rewrite IH by lia.
    destruct proof; reflexivity.
Qed.

Lemma Generate_all_loop setup w n : forall lo proof,
  (lo + n <= length (Pk_B (Pk setup)))%nat ->
  (lo + n <= length (Pk_Bp (Pk setup)))%nat ->
  (lo + n <= length (Pk_C (Pk setup)))%nat ->
  (lo + n <= length (Pk_Cp (Pk setup)))%nat ->
  (lo + n <= length (Pk_Kp (Pk setup)))%nat ->
  (lo + n <= length w)%nat ->
  for_loop n (Z.of_nat lo) (Generate_all setup w) proof =
  Continue
    {| PiA := PiA proof;
       PiAp := PiAp proof;
       PiB := sumG2 (Pk_B (Pk setup)) w (seq lo n) (PiB proof);
       PiBp := sumG1 (Pk_Bp (Pk setup)) w (seq lo n) (PiBp proof);
       PiC := sumG1 (Pk_C (Pk setup)) w (seq lo n) (PiC proof);
       PiCp := sumG1 (Pk_Cp (Pk setup)) w (seq lo n) (PiCp proof);
       PiH := PiH proof;
       PiKp := sumG1 (Pk_Kp (Pk setup)) w (seq lo n) (PiKp proof) |}.
Proof.
  induction n as [|n IH]; intros lo proof HB HBp HC HCp HK Hw.
  - destruct proof; reflexivity.
  - simpl for_loop. unfold Generate_all at 1.
    rewrite (@index_nth _ _ _ zeroG2) by lia.
    rewrite (@index_nth _ _ _ 0) by lia.
    rewrite !(@index_nth _ _ _ zeroG1) by lia.
    replace (Z.of_nat lo + 1) with (Z.of_nat (Datatypes.S lo)) by lia.
    rewrite IH by lia.
    destruct proof; reflexivity.
Qed.

Lemma Generate_h_loop setup hx n : forall lo proof,
  (lo + n <= length (G1T setup))%nat ->
  (lo + n <= length hx)%nat ->
  for_loop n (Z.of_nat lo) (Generate_h setup hx) proof =
  Continue (set_PiH (sumG1 (G1T setup) hx (seq lo n) (PiH proof)) proof).
Proof.
  induction n as [|n IH]; intros lo proof HG Hh.
  - destruct proof; reflexivity.
  - simpl for_loop. unfold Generate_h at 1.
    rewrite (@index_nth _ _ _ zeroG1) by lia.
    rewrite (@index_nth _ _ _ 0) by lia.
    replace (Z.of_nat lo + 1) with (Z.of_nat (Datatypes.S lo)) by lia.
    rewrite IH by lia.
    destruct proof; reflexivity.
Qed.

End GenerateFacts.

Section GenerateSpec.

Context {F : Fields} {Cv : Curve}.

Lemma for_range_private setup cir w proof :
  0 <= NPublic cir < 2 ^ 63 - 1 ->
  NVars cir <= len (Pk_A (Pk setup)) ->
  NVars cir <= len (Pk_Ap (Pk setup)) ->
  NVars cir <= len w ->
  for_range (int_wrap (NPublic cir + 1)) (NVars cir) (Generate_private setup w) proof =
  Continue
    (set_PiAp (sumG1 (Pk_Ap (Pk setup)) w
                 (indices_between (NPublic cir + 1) (NVars cir)) (PiAp proof))
       (set_PiA (sumG1 (Pk_A (Pk setup)) w
                   (indices_between (NPublic cir + 1) (NVars cir)) (PiA proof))
          proof)).
Proof.
  intros Hp HA HAp Hw. unfold len in *.
  rewrite int_wrap_id by (unfold int_ok; lia).
  unfold for_range, indices_between.
  destruct (Z_le_gt_dec (NVars cir) (NPublic cir + 1)) as [Hle|Hgt].
  - replace (Z.to_nat (NVars cir - (NPublic cir + 1))) with 0%nat by lia.
    destruct proof; reflexivity.
  - pose proof (@Generate_private_loop _ setup w
        (Z.to_nat (NVars cir - (NPublic cir + 1)))
        (Z.to_nat (NPublic cir + 1)) proof) as L.
    rewrite Z2Nat.id in L by lia. apply L; lia.
Qed.

Lemma for_range_all setup cir w proof :
  NVars cir <= len (Pk_B (Pk setup)) ->
  NVars cir <= len (Pk_Bp (Pk setup)) ->
  NVars cir <= len (Pk_C (Pk setup)) ->
  NVars cir <= len (Pk_Cp (Pk setup)) ->
  NVars cir <= len (Pk_Kp (Pk setup)) ->
  NVars cir <= len w ->
  for_range 0 (NVars cir) (Generate_all setup w) proof =
  Continue
    {| PiA := PiA proof;
       PiAp := PiAp proof;
       PiB := sumG2 (Pk_B (Pk setup)) w (indices_between 0 (NVars cir)) (PiB proof);
       PiBp := sumG1 (Pk_Bp (Pk setup)) w (indices_between 0 (NVars cir)) (PiBp proof);
       PiC := sumG1 (Pk_C (Pk setup)) w (indices_between 0 (NVars cir)) (PiC proof);
       PiCp := sumG1 (Pk_Cp (Pk setup)) w (indices_between 0 (NVars cir)) (PiCp proof);
       PiH := PiH proof;
       PiKp := sumG1 (Pk_Kp (Pk setup)) w (indices_between 0 (NVars cir)) (PiKp proof) |}.
Proof.
  intros HB HBp HC HCp HK Hw. unfold len in *.
  unfold for_range, indices_between.
  rewrite Z.sub_0_r. change (Z.to_nat 0) with 0%nat.
  apply (@Generate_all_loop _ setup w (Z.to_nat (NVars cir)) 0%nat proof); lia.
Qed.

Lemma for_range_h setup hx proof :
  len hx <= len (G1T setup) ->
  for_range 0 (len hx) (Generate_h setup hx) proof =
  Continue (set_PiH (sumG1 (G1T setup) hx (indices_between 0 (len hx)) (PiH proof))
              proof).
Proof.
  intros Hh. unfold len in *.
  unfold for_range, indices_between.
  rewrite Z.sub_0_r. change (Z.to_nat 0) with 0%nat.
  apply (@Generate_h_loop _ setup hx (Z.to_nat (Z.of_nat (length hx))) 0%nat proof); lia.
Qed.

Lemma Generate_returns setup cir w px :
  Generate_in_range setup cir w px ->
  Generate setup cir w px =
  Returned (PinocchioP (Generate_result setup cir w px), None).
Proof.
  intros [Hp HA HAp HB HBp HC HCp HK Hw Hh].
  unfold Generate.
  rewrite for_range_private by assumption.
  rewrite for_range_all by assumption.
  rewrite for_range_h by assumption.
  reflexivity.
Qed.

(** [Generate] has no statement that returns a non-nil error. *)
Lemma Generate_error_nil setup cir w px res :
  Generate setup cir w px = Returned res -> snd res = None.
Proof.
  unfold Generate.
  destruct (for_range _ _ (Generate_private setup w) _) as [p1| |] eqn:E1;
    [|exfalso; eapply for_loop_no_return in E1; eauto using Generate_private_no_return
     |discriminate].
  destruct (for_range _ _ (Generate_all setup w) _) as [p2| |] eqn:E2;
    [|exfalso; eapply for_loop_no_return in E2; eauto using Generate_all_no_return
     |discriminate].
  destruct (for_range _ _ (Generate_h setup _) _) as [p3| |] eqn:E3;
    [|exfalso; eapply for_loop_no_return in E3; eauto using Generate_h_no_return
     |discriminate].
  simpl. intros H; inversion H; reflexivity.
Qed.

End GenerateSpec.

(** ** The verifier *)

Section VerifyFacts.

Context {Cv : Curve} {Pr : PairingOps}.

Lemma Verify_vkx_no_return setup ps i acc r :
  Verify_vkx setup ps i acc <> Return r.
Proof.
  unfold Verify_vkx.
  repeat match goal with |- context [match ?o with _ => _ end] => destruct o end;
    discriminate.
Qed.

Lemma Verify_vkx_loop setup ps n : forall lo acc,
  (lo + n <= length ps)%nat ->
  (lo + n < length (Vk_IC (Vk setup)))%nat ->
  for_loop n (Z.of_nat lo) (Verify_vkx setup ps) acc =
  Continue
    (fold_left
       (fun acc i =>
          G1_Add acc (G1_MulScalar (nth (Datatypes.S i) (Vk_IC (Vk setup)) zeroG1)
                                   (nth i ps 0)))
       (seq lo n) acc).
Proof.
  induction n as [|n IH]; intros lo acc Hps HIC.
  - reflexivity.
  - simpl for_loop. unfold Verify_vkx at 1.
    replace (Z.of_nat lo + 1) with (Z.of_nat (Datatypes.S lo)) by lia.
    rewrite (@index_nth _ _ _ zeroG1) by lia.
    rewrite (@index_nth _ _ _ 0) by lia.
    rewrite IH by lia. reflexivity.
Qed.

(** With as many signals as [IC] has entries, or more, the loop leaves the
    slice. *)
Lemma Verify_vkx_loop_panics setup ps n : forall lo acc,
  (lo + n <= length ps)%nat ->
  (length (Vk_IC (Vk setup)) <= lo + n)%nat ->
  (0 < n)%nat ->
  for_loop n (Z.of_nat lo) (Verify_vkx setup ps) acc = Panic.
Proof.
  induction n as [|n IH]; intros lo acc Hps HIC Hn; [lia|].
  simpl for_loop. unfold Verify_vkx at 1.
  destruct (Nat.le_gt_cases (length (Vk_IC (Vk setup))) (Datatypes.S lo)) as [Hout|Hin].
  - rewrite index_none_high by (unfold len; lia). reflexivity.
  - replace (Z.of_nat lo + 1) with (Z.of_nat (Datatypes.S lo)) by lia.
    rewrite (@index_nth _ _ _ zeroG1) by lia.
    rewrite (@index_nth _ _ _ 0) by lia.
    apply IH; lia.
Qed.

Lemma Verify_vkx_range setup ps :
  (length ps < length (Vk_IC (Vk setup)))%nat ->
  index (Vk_IC (Vk setup)) 0 = Some (nth 0%nat (Vk_IC (Vk setup)) zeroG1) /\
  for_range 0 (len ps) (Verify_vkx setup ps) (nth 0%nat (Vk_IC (Vk setup)) zeroG1) =
  Continue (Vkx (Vk_IC (Vk setup)) ps).
Proof.
  intros H. split.
  - apply (@index_nth _ (Vk_IC (Vk setup)) 0%nat zeroG1). lia.
  - unfold for_range, len, Vkx. rewrite Z.sub_0_r, Nat2Z.id.
    apply (@Verify_vkx_loop setup ps (length ps) 0%nat); lia.
Qed.

Lemma Verify_vkx_range_panics setup ps
    (k : Z * Z * Z -> ctl (bool * option string) (bool * option string)) :
  (length (Vk_IC (Vk setup)) <= length ps)%nat ->
  (get vkxpia <- index (Vk_IC (Vk setup)) 0;
   do vkxpia <- for_range 0 (len ps) (Verify_vkx setup ps) vkxpia;
   k vkxpia) = Panic.
Proof.
  intros H.
  destruct (Vk_IC (Vk setup)) as [|ic0 IC] eqn:E; [reflexivity|].
  change (index (ic0 :: IC) 0) with (Some ic0). cbv beta iota.
  unfold for_range, len. rewrite Z.sub_0_r, Nat2Z.id.
  rewrite (@Verify_vkx_loop_panics setup ps (length ps) 0%nat);
    rewrite ?E; simpl in *; try lia.
  reflexivity.
Qed.

End VerifyFacts.

(** ** The setup *)

Section InitFacts.

Context {F : Fields} {Cv : Curve}.

Lemma Init_rows_nil tox cir alphas betas gammas s :
  Init_rows tox cir alphas betas gammas [] s = s.
Proof.
  destruct s as [tx g1 g2 pk vk]; destruct pk, vk.
  unfold Init_rows, set_IC; simpl. now rewrite !app_nil_r.
Qed.

Lemma Init_rows_app tox cir alphas betas gammas l1 l2 s :
  Init_rows tox cir alphas betas gammas (l1 ++ l2) s =
  Init_rows tox cir alphas betas gammas l2
    (Init_rows tox cir alphas betas gammas l1 s).
Proof.
  unfold Init_rows, set_IC; simpl.
  now rewrite filter_app, !map_app, !app_assoc.
Qed.

Lemma Init_signal_passes err tox cir alphas betas gammas (i : nat) s :
  Toxic s = tox ->
  (i < length alphas)%nat -> (i < length betas)%nat -> (i < length gammas)%nat ->
  consistent tox (nth i alphas []) (nth i betas []) (nth i gammas []) = true ->
  Init_signal err cir alphas betas gammas (Z.of_nat i) s =
  Continue (Init_rows tox cir alphas betas gammas [i] s).
Proof.
  intros Htox Ha Hb Hg Hc. subst tox. unfold Init_signal.
  rewrite !(@index_nth _ _ _ []) by assumption.
  unfold consistent, k_t, pk_a, pk_b1, pk_c in Hc.
  unfold Init_rows, pk_ap, pk_bp, pk_cp, pk_kp, pk_a, pk_b2, pk_c, pk_b1, k_t.
  cbn [filter map].
  destruct (Z.of_nat i <=? NPublic cir); cbn; rewrite Hc; cbn;
    rewrite ?app_nil_r; destruct s as [tx g1 g2 pk vk]; destruct pk, vk; reflexivity.
Qed.

Lemma Init_signal_fails err tox cir alphas betas gammas (i : nat) s :
  Toxic s = tox ->
  (i < length alphas)%nat -> (i < length betas)%nat -> (i < length gammas)%nat ->
  consistent tox (nth i alphas []) (nth i betas []) (nth i gammas []) = false ->
  Init_signal err cir alphas betas gammas (Z.of_nat i) s =
  Return (Init_half_row tox cir alphas betas gammas i s, err).
Proof.
  intros Htox Ha Hb Hg Hc. subst tox. unfold Init_signal.
  rewrite !(@index_nth _ _ _ []) by assumption.
  unfold consistent, k_t, pk_a, pk_b1, pk_c in Hc.
  unfold Init_half_row, pk_a, pk_b2, pk_c.
  destruct (Z.of_nat i <=? NPublic cir); cbn; rewrite Hc; cbn;
    rewrite ?app_nil_r; destruct s as [tx g1 g2 pk vk]; destruct vk; reflexivity.
Qed.

Lemma Init_signal_loop err tox cir alphas betas gammas k : forall lo s,
  Toxic s = tox ->
  (lo + k <= length alphas)%nat ->
  (lo + k <= length betas)%nat ->
  (lo + k <= length gammas)%nat ->
  (forall i, (lo <= i < lo + k)%nat ->
     consistent tox (nth i alphas []) (nth i betas []) (nth i gammas []) = true) ->
  for_loop k (Z.of_nat lo) (Init_signal err cir alphas betas gammas) s =
  Continue (Init_rows tox cir alphas betas gammas (seq lo k) s).
Proof.
  induction k as [|k IH]; intros lo s Htox Ha Hb Hg Hc.
  - simpl. now rewrite Init_rows_nil.
  - simpl for_loop.
    rewrite (@Init_signal_passes err tox) by (auto; try lia; apply Hc; lia).
    replace (Z.of_nat lo + 1) with (Z.of_nat (Datatypes.S lo)) by lia.
    rewrite IH; try lia; auto.
    + change (seq lo (Datatypes.S k)) with ([lo] ++ seq (Datatypes.S lo) k).
      now rewrite Init_rows_app.
    + intros i Hi. apply Hc. lia.
Qed.

(** The loop stops at the first signal whose check fails. *)
Lemma Init_signal_loop_fails err tox cir alphas betas gammas k : forall lo s j,
  Toxic s = tox ->
  (lo <= j < lo + k)%nat ->
  (j < length alphas)%nat -> (j < length betas)%nat -> (j < length gammas)%nat ->
  (forall i, (lo <= i < j)%nat ->
     consistent tox (nth i alphas []) (nth i betas []) (nth i gammas []) = true) ->
  consistent tox (nth j alphas []) (nth j betas []) (nth j gammas []) = false ->
  for_loop k (Z.of_nat lo) (Init_signal err cir alphas betas gammas) s =
  Return (Init_half_row tox cir alphas betas gammas j
            (Init_rows tox cir alphas betas gammas (seq lo (j - lo)) s), err).
Proof.
  induction k as [|k IH]; intros lo s j Htox Hj Ha Hb Hg Hc Hf; [lia|].
  simpl for_loop.
  destruct (Nat.eq_dec lo j) as [->|Hne].
  - rewrite (@Init_signal_fails err tox) by auto.
    rewrite Nat.sub_diag. simpl seq. now rewrite Init_rows_nil.
  - rewrite (@Init_signal_passes err tox) by (auto; try lia; apply Hc; lia).
    replace (Z.of_nat lo + 1) with (Z.of_nat (Datatypes.S lo)) by lia.
    rewrite (IH (Datatypes.S lo) _ j); auto; try lia.
    + replace (j - lo)%nat with (Datatypes.S (j - Datatypes.S lo)) by lia.
      change (seq lo (Datatypes.S (j - Datatypes.S lo)))
        with ([lo] ++ seq (Datatypes.S lo) (j - Datatypes.S lo)).
      now rewrite Init_rows_app.
    + intros i Hi. apply Hc. lia.
Qed.

Lemma Init_zpol_loop k : forall lo z,
  for_loop k (Z.of_nat lo) Init_zpol z =
  Continue (fold_left (fun z i => PF_Mul z [FqR_Neg (Z.of_nat i); 1]) (seq lo k) z).
Proof.
  induction k as [|k IH]; intros lo z; [reflexivity|].
  simpl for_loop. unfold Init_zpol at 1.
  replace (Z.of_nat lo + 1) with (Z.of_nat (Datatypes.S lo)) by lia.
  now rewrite IH.
Qed.

Lemma Init_zpol_range (n : Z) :
  for_range 1 (n - 1) Init_zpol [1] = Continue (zpol_of n).
Proof.
  unfold for_range, zpol_of.
  replace (n - 1 - 1) with (n - 2) by lia.
  apply (Init_zpol_loop (Z.to_nat (n - 2)) 1%nat).
Qed.

Lemma t_power_succ t k :
  (1 <= k)%nat -> t_power t (Datatypes.S k) = FqR_Mul (t_power t k) t.
Proof.
  destruct k; [lia|reflexivity].
Qed.

Lemma Init_gt1_loop t k : forall lo gt1,
  (1 <= lo)%nat ->
  for_loop k (Z.of_nat lo) (Init_gt1 t) (gt1, t_power t lo) =
  Continue (gt1 ++ map (fun j => G1_MulScalar G1_G (t_power t j)) (seq lo k),
            t_power t (lo + k)).
Proof.
  induction k as [|k IH]; intros lo gt1 Hlo.
  - simpl. now rewrite app_nil_r, Nat.add_0_r.
  - simpl for_loop. unfold Init_gt1 at 1.
    replace (Z.of_nat lo + 1) with (Z.of_nat (Datatypes.S lo)) by lia.
    rewrite <- t_power_succ by assumption.
    rewrite IH by lia. simpl map.
    rewrite <- app_assoc. simpl app.
    now replace (Datatypes.S lo + k)%nat with (lo + Datatypes.S k)%nat by lia.
Qed.

Lemma Init_gt1_range t (zpol : list Z) :
  for_range 1 (len zpol) (Init_gt1 t) ([G1_G], t) =
  Continue (g1t_of t zpol, t_power t (1 + (length zpol - 1))).
Proof.
  unfold for_range, g1t_of, len.
  replace (Z.to_nat (Z.of_nat (length zpol) - 1)) with (length zpol - 1)%nat by lia.
  apply (@Init_gt1_loop t (length zpol - 1) 1%nat [G1_G]). lia.
Qed.

(** The eight draws and the six key points. *)
Lemma Init_prelude rand setup cir alphas betas gammas :
  rand_ok rand ->
  Init rand setup cir alphas betas gammas =
  run (
    do setup <- for_range 0 (len (Signals cir))
                  (Init_signal None cir alphas betas gammas) (Init_keys rand setup);
    do zpol <- for_range 1 (len alphas - 1) Init_zpol [1];
    let setup := upd_Pk (set_Pk_Z zpol) setup in
    let zt := PF_Eval zpol (Toxic_T (Toxic setup)) in
    let rhoCzt := FqR_Mul (Toxic_RhoC (Toxic setup)) zt in
    let setup := upd_Vk (set_Vkz (G2_MulScalar G2_G rhoCzt)) setup in
    do (gt1, tEncr) <- for_range 1 (len zpol) (Init_gt1 (Toxic_T (Toxic setup)))
                         ([G1_G], Toxic_T (Toxic setup));
    Return (set_G1T gt1 setup, None)).
Proof.
  intros Hr. unfold Init, rand_into, Init_keys, drawn.
  pose proof (Hr 0%nat) as H0. pose proof (Hr 1%nat) as H1.
  pose proof (Hr 2%nat) as H2. pose proof (Hr 3%nat) as H3.
  pose proof (Hr 4%nat) as H4. pose proof (Hr 5%nat) as H5.
  pose proof (Hr 6%nat) as H6. pose proof (Hr 7%nat) as H7.
  destruct (rand 0%nat) as [v0 e0], (rand 1%nat) as [v1 e1],
           (rand 2%nat) as [v2 e2], (rand 3%nat) as [v3 e3],
           (rand 4%nat) as [v4 e4], (rand 5%nat) as [v5 e5],
           (rand 6%nat) as [v6 e6], (rand 7%nat) as [v7 e7].
  simpl in H0, H1, H2, H3, H4, H5, H6, H7.
  rewrite H0, H1, H2, H3, H4, H5, H6, H7 by lia.
  destruct setup as [tx g1 g2 pk vk]; destruct vk. reflexivity.
Qed.

Lemma Init_complete_run rand setup cir alphas betas gammas :
  Init_completes rand cir alphas betas gammas ->
  Init rand setup cir alphas betas gammas =
  Returned (Init_result rand setup cir alphas betas gammas, None).
Proof.
  intros [Hr Ha Hb Hg Hc].
  rewrite Init_prelude by assumption.
  unfold for_range at 1. rewrite Z.sub_0_r. unfold len at 1. rewrite Nat2Z.id.
  rewrite (@Init_signal_loop None (drawn rand) cir alphas betas gammas
             (length (Signals cir)) 0%nat (Init_keys rand setup));
    try reflexivity; try lia.
  2: { intros i Hi. apply Hc. lia. }
  rewrite Init_zpol_range. cbv zeta.
  rewrite Init_gt1_range. reflexivity.
Qed.

(** A failed check at signal [j] ends the call with what the loop had
    stored and with the error of the last draw. *)
Lemma Init_failed_check rand setup cir alphas betas gammas (j : nat) :
  rand_ok rand ->
  (j < length (Signals cir))%nat ->
  (j < length alphas)%nat -> (j < length betas)%nat -> (j < length gammas)%nat ->
  (forall i, (i < j)%nat ->
     consistent (drawn rand) (nth i alphas []) (nth i betas []) (nth i gammas []) = true) ->
  consistent (drawn rand) (nth j alphas []) (nth j betas []) (nth j gammas []) = false ->
  Init rand setup cir alphas betas gammas =
  Returned
    (Init_half_row (drawn rand) cir alphas betas gammas j
       (Init_rows (drawn rand) cir alphas betas gammas (seq 0 j)
          (Init_keys rand setup)),
     None).
Proof.
  intros Hr Hj Ha Hb Hg Hc Hf.
  rewrite Init_prelude by assumption.
  unfold for_range at 1. rewrite Z.sub_0_r. unfold len at 1. rewrite Nat2Z.id.
  rewrite (@Init_signal_loop_fails None (drawn rand) cir alphas betas gammas
             (length (Signals cir)) 0%nat (Init_keys rand setup) j);
    try reflexivity; try assumption; try lia.
  - now rewrite Nat.sub_0_r.
  - intros i Hi. apply Hc. lia.
Qed.

End InitFacts.

(** ** The target polynomial in the modelled field *)

Section PolyFacts.

Import SpecModel.

Variable p : Z.
Hypothesis p_gt_1 : 1 < p.

Lemma pf_normalize_id (f : list Z) :
  f <> [] -> last f 0 <> 0 -> pf_normalize f = f.
Proof.
  induction f as [|a f IH]; intros Hne Hl; [congruence|].
  destruct f as [|b f'].
  - simpl in *. destruct (a =? 0) eqn:E; [apply Z.eqb_eq in E; lia|reflexivity].
  - change (last (a :: b :: f') 0) with (last (b :: f') 0) in Hl.
    change (pf_normalize (a :: b :: f'))
      with (match pf_normalize (b :: f') with
            | [] => if a =? 0 then [] else [a]
            | g => a :: g
            end).
    rewrite IH by (auto; discriminate). reflexivity.
Qed.

Lemma x_minus_shape i (f : list Z) :
  f <> [] -> exists c d, x_minus i f = c :: d ++ [last f 0] /\ length d = (length f - 1)%nat.
Proof.
  induction f as [|a g IH]; intros Hne; [congruence|].
  destruct g as [|b g'].
  - exists (- i * a), []. simpl. split; reflexivity.
  - destruct IH as (c & d & E & Hd); [discriminate|].
    change (x_minus i (a :: b :: g'))
      with ((- i * a) :: zadd [a] (x_minus i (b :: g'))).
    rewrite E. change (last (a :: b :: g') 0) with (last (b :: g') 0).
    exists (- i * a), ((a + c) :: d). simpl zadd.
    split; [reflexivity|]. simpl length in *. lia.
Qed.

Lemma x_minus_nonempty i (f : list Z) : f <> [] -> x_minus i f <> [].
Proof.
  intros H. destruct (x_minus_shape i H) as (c & d & E & _). rewrite E. discriminate.
Qed.

Lemma x_minus_last i (f : list Z) : f <> [] -> last (x_minus i f) 0 = last f 0.
Proof.
  intros H. destruct (x_minus_shape i H) as (c & d & E & _). rewrite E.
  change (c :: d ++ [last f 0]) with ((c :: d) ++ [last f 0]).
  apply last_last.
Qed.

Lemma x_minus_length i (f : list Z) :
  f <> [] -> length (x_minus i f) = Datatypes.S (length f).
Proof.
  intros H. destruct (x_minus_shape i H) as (c & d & E & Hd). rewrite E.
  simpl. rewrite length_app. simpl. destruct f; [congruence|]. simpl in *. lia.
Qed.

Lemma zeval_zadd (f g : list Z) x : zeval (zadd f g) x = zeval f x + zeval g x.
Proof.
  revert g. induction f as [|a f IH]; intros [|b g]; simpl; try lia.
  rewrite IH. ring.
Qed.

Lemma zeval_x_minus i (f : list Z) x : zeval (x_minus i f) x = (x - i) * zeval f x.
Proof.
  induction f as [|a g IH]; [simpl; ring|].
  cbn [x_minus]. cbn [zeval]. rewrite zeval_zadd, IH. cbn [zeval]. ring.
Qed.

Lemma pf_eval_reduce (f : list Z) x :
  pf_eval p (map (fun c => c mod p) f) x = zeval f x mod p.
Proof.
  induction f as [|a g IH]; simpl.
  - symmetry. apply Z.mod_0_l. lia.
  - rewrite IH. unfold fp_add, fp_mul.
    rewrite Z.mul_mod_idemp_r by lia.
    rewrite Z.add_mod_idemp_l, Z.add_mod_idemp_r by lia. reflexivity.
Qed.

(** Multiplying by the two-coefficient polynomial [(-i mod p) + x], as
    [Init] does, is the integer multiplication by (x - i) reduced mod p. *)
Lemma pf_mul_raw_linear i (f : list Z) :
  pf_mul_raw p (map (fun c => c mod p) f) [fp_neg p i; 1] =
  map (fun c => c mod p) (x_minus i f).
Proof.
  induction f as [|a g IH]; [reflexivity|].
  change (map (fun c => c mod p) (a :: g))
    with (a mod p :: map (fun c => c mod p) g).
  change (pf_mul_raw p (a mod p :: map (fun c => c mod p) g) [fp_neg p i; 1])
    with (pf_add_raw p (map (fp_mul p (a mod p)) [fp_neg p i; 1])
            (0 :: pf_mul_raw p (map (fun c => c mod p) g) [fp_neg p i; 1])).
  rewrite IH.
  change (x_minus i (a :: g)) with ((- i * a) :: zadd [a] (x_minus i g)).
  simpl map at 1. simpl pf_add_raw.
  assert (H1 : fp_add p (fp_mul p (a mod p) (fp_neg p i)) 0 = (- i * a) mod p).
  { unfold fp_add, fp_mul, fp_neg. rewrite Z.add_0_r, Z.mod_mod by lia.
    rewrite Z.mul_mod_idemp_l, Z.mul_mod_idemp_r by lia. f_equal. ring. }
  assert (H2 : fp_mul p (a mod p) 1 = a mod p).
  { unfold fp_mul. rewrite Z.mul_1_r. apply Z.mod_mod. lia. }
  rewrite H1, H2.
  change (map (fun c => c mod p) ((- i * a) :: zadd [a] (x_minus i g)))
    with ((- i * a) mod p :: map (fun c => c mod p) (zadd [a] (x_minus i g))).
  f_equal.
  destruct (x_minus i g) as [|c rest]; simpl.
  - reflexivity.
  - unfold fp_add. rewrite <- Z.add_mod by lia.
    destruct rest; reflexivity.
Qed.

Lemma reduce_last (f : list Z) :
  f <> [] -> last f 0 = 1 -> last (map (fun c => c mod p) f) 0 = 1.
Proof.
  intros Hne Hl.
  destruct (exists_last Hne) as (f' & a & ->).
  rewrite last_last in Hl. subst a.
  rewrite map_app. cbn [map]. rewrite last_last. apply Z.mod_1_l. lia.
Qed.

Lemma pf_mul_linear i (f : list Z) :
  f <> [] -> last f 0 = 1 ->
  pf_mul p (map (fun c => c mod p) f) [fp_neg p i; 1] =
  map (fun c => c mod p) (x_minus i f).
Proof.
  intros Hne Hl. unfold pf_mul. rewrite pf_mul_raw_linear.
  apply pf_normalize_id.
  - pose proof (x_minus_nonempty i Hne). destruct (x_minus i f); [congruence|discriminate].
  - rewrite reduce_last; [lia|now apply x_minus_nonempty|].
    now rewrite x_minus_last.
Qed.

Lemma linear_fold_invariant (l : list nat) : forall f : list Z,
  f <> [] -> last f 0 = 1 ->
  let g := fold_left (fun f i => x_minus (Z.of_nat i) f) l f in
  g <> [] /\ last g 0 = 1 /\ length g = (length f + length l)%nat /\
  fold_left (fun z i => pf_mul p z [fp_neg p (Z.of_nat i); 1]) l
            (map (fun c => c mod p) f) =
  map (fun c => c mod p) g.
Proof.
  induction l as [|i l IH]; intros f Hne Hl; simpl.
  - repeat split; auto.
  - rewrite pf_mul_linear by assumption.
    destruct (IH (x_minus (Z.of_nat i) f)) as (H1 & H2 & H3 & H4).
    + now apply x_minus_nonempty.
    + now rewrite x_minus_last.
    + repeat split; auto. rewrite H3, x_minus_length by assumption. lia.
Qed.

Lemma linear_product_facts (k : nat) :
  linear_product k <> [] /\ last (linear_product k) 0 = 1 /\
  length (linear_product k) = Datatypes.S k.
Proof.
  destruct (@linear_fold_invariant (seq 1 k) [1]) as (H1 & H2 & H3 & _);
    [discriminate|reflexivity|].
  unfold linear_product. repeat split; auto.
  rewrite H3, length_seq. reflexivity.
Qed.

(** What [zpol] is in the modelled field. *)
Lemma zpol_of_target (n : Z) :
  @zpol_of (SpecFields p) n = target_polynomial p (Z.to_nat (n - 2)).
Proof.
  unfold zpol_of, target_polynomial, linear_product.
  destruct (@linear_fold_invariant (seq 1 (Z.to_nat (n - 2))) [1]) as (_ & _ & _ & H);
    [discriminate|reflexivity|].
  simpl map in H. rewrite Z.mod_1_l in H by lia. exact H.
Qed.

Lemma target_polynomial_length (k : nat) :
  length (target_polynomial p k) = Datatypes.S k.
Proof.
  unfold target_polynomial. rewrite length_map.
  apply linear_product_facts.
Qed.

Lemma target_polynomial_monic (k : nat) : last (target_polynomial p k) 0 = 1.
Proof.
  unfold target_polynomial.
  destruct (linear_product_facts k) as (H1 & H2 & _).
  now apply reduce_last.
Qed.

Lemma target_polynomial_degree (k : nat) : pf_degree (target_polynomial p k) = k.
Proof.
  unfold pf_degree. rewrite pf_normalize_id.
  - rewrite target_polynomial_length. lia.
  - pose proof (target_polynomial_length k). destruct (target_polynomial p k);
      [discriminate|discriminate].
  - rewrite target_polynomial_monic. lia.
Qed.

Lemma zeval_linear_fold (l : list nat) x : forall f,
  zeval (fold_left (fun f i => x_minus (Z.of_nat i) f) l f) x =
  fold_left (fun acc i => acc * (x - Z.of_nat i)) l (zeval f x).
Proof.
  induction l as [|i l IH]; intros f; simpl; [reflexivity|].
  rewrite IH, zeval_x_minus. f_equal. ring.
Qed.

Lemma target_polynomial_eval (k : nat) x :
  pf_eval p (target_polynomial p k) x = zprod x k mod p.
Proof.
  unfold target_polynomial, linear_product, zprod.
  rewrite pf_eval_reduce, zeval_linear_fold. cbn [zeval].
  now rewrite Z.mul_0_r, Z.add_0_r.
Qed.

Lemma zprod_succ x k : zprod x (Datatypes.S k) = zprod x k * (x - Z.of_nat (Datatypes.S k)).
Proof.
  unfold zprod. rewrite seq_S, fold_left_app. reflexivity.
Qed.

(** In a prime field the product vanishes exactly at 1, ..., k. *)
Lemma zprod_roots (Hprime : Z.prime p) x (k : nat) :
  zprod x k mod p = 0 <->
  exists i, 1 <= i <= Z.of_nat k /\ (x - i) mod p = 0.
Proof.
  induction k as [|k IH].
  - unfold zprod; simpl. rewrite Z.mod_1_l by lia. split; [lia|].
    intros (i & Hi & _). lia.
  - rewrite zprod_succ. split.
    + intros H. apply Z.mod_divide in H; [|lia].
      apply (Z.divide_prime_mul _ _ _ Hprime) in H.
      destruct H as [H|H].
      * apply Z.mod_divide in H; [|lia]. apply IH in H.
        destruct H as (i & Hi & Hx). exists i. split; [lia|assumption].
      * exists (Z.of_nat (Datatypes.S k)). split; [lia|].
        apply Z.mod_divide; [lia|assumption].
    + intros (i & Hi & Hx).
      apply Z.mod_divide; [lia|].
      destruct (Z.eq_dec i (Z.of_nat (Datatypes.S k))) as [->|Hne].
      * apply Z.divide_mul_r. apply Z.mod_divide; [lia|assumption].
      * apply Z.divide_mul_l. apply Z.mod_divide; [lia|].
        apply IH. exists i. split; [lia|assumption].
Qed.

(** [tEncr] in the modelled field is the power of [t]. *)
Lemma t_power_pow (t : Z) (k : nat) :
  0 <= t < p -> (1 <= k)%nat ->
  @t_power (SpecFields p) t k = t ^ Z.of_nat k mod p.
Proof.
  intros Ht Hk. induction k as [|k IH]; [lia|].
  destruct k as [|k'].
  - simpl t_power. change (Z.of_nat 1) with 1. rewrite Z.pow_1_r.
    symmetry. apply Z.mod_small. assumption.
  - rewrite t_power_succ by lia. rewrite IH by lia.
    change (@FqR_Mul (SpecFields p)) with (fp_mul p). unfold fp_mul.
    rewrite Z.mul_mod_idemp_l by lia.
    rewrite (Nat2Z.inj_succ (Datatypes.S k')), Z.pow_succ_r by lia.
    f_equal. ring.
Qed.

End PolyFacts.

(** ** The verifier: verdicts and errors *)

Section VerifyTheorems.

Context {Cv : Curve} {Pr : PairingOps}.

Ltac split_checks :=
  unfold five_equations, pairing_eq1, pairing_eq2, pairing_eq3, pairing_eq4,
    pairing_eq5, eq12;
  repeat match goal with
         | |- context [Fq12_Equal ?a ?b] =>
             let E := fresh "E" in destruct (Fq12_Equal a b) eqn:E; simpl
         end.

(** With fewer signals than [IC] has entries, the verdict is the
    conjunction of the five checks. *)
Lemma Verify_in_range setup pi ps :
  (length ps < length (Vk_IC (Vk setup)))%nat ->
  (five_equations setup pi ps /\
   Verify setup (PinocchioP pi) ps = Returned (true, None)) \/
  (~ five_equations setup pi ps /\
   Verify setup (PinocchioP pi) ps = Returned (false, None)).
Proof.
  intros H. destruct (Verify_vkx_range setup ps H) as [E0 E1].
  unfold Verify. rewrite E0. cbv beta iota. rewrite E1. cbv beta iota zeta.
  split_checks; try (right; split; [intuition congruence|reflexivity]).
  left. repeat split; assumption.
Qed.

(** The first three checks come before any indexing. *)
Lemma Verify_first_three_fail setup pi ps :
  ~ (pairing_eq1 setup pi /\ pairing_eq2 setup pi /\ pairing_eq3 setup pi) ->
  Verify setup (PinocchioP pi) ps = Returned (false, None).
Proof.
  unfold Verify, pairing_eq1, pairing_eq2, pairing_eq3, eq12. intros H.
  destruct (Fq12_Equal (Bn_Pairing (PiA pi) (Vk_Vka (Vk setup))) _) eqn:E1;
    [|reflexivity].
  destruct (Fq12_Equal (Bn_Pairing (Vk_Vkb (Vk setup)) (PiB pi)) _) eqn:E2;
    [|reflexivity].
  destruct (Fq12_Equal (Bn_Pairing (PiC pi) (Vk_Vkc (Vk setup))) _) eqn:E3;
    [|reflexivity].
  exfalso. apply H. repeat split; assumption.
Qed.

(** With as many signals as [IC] has entries, or more, a proof that passes
    the first three checks makes the loop index out of range. *)
Lemma Verify_out_of_range setup pi ps :
  (length (Vk_IC (Vk setup)) <= length ps)%nat ->
  pairing_eq1 setup pi -> pairing_eq2 setup pi -> pairing_eq3 setup pi ->
  Verify setup (PinocchioP pi) ps = Panicked.
Proof.
  unfold pairing_eq1, pairing_eq2, pairing_eq3, eq12. intros H E1 E2 E3.
  unfold Verify. cbv zeta. rewrite E1, E2, E3. simpl negb. cbv iota.
  rewrite Verify_vkx_range_panics by assumption. reflexivity.
Qed.

(** A [*PinocchioProof] never makes [Verify] return an error. *)
Lemma Verify_pinocchio_error_nil setup pi ps res :
  Verify setup (PinocchioP pi) ps = Returned res -> snd res = None.
Proof.
  destruct (Nat.lt_ge_cases (length ps) (length (Vk_IC (Vk setup)))) as [Hlt|Hge].
  - destruct (@Verify_in_range setup pi ps Hlt) as [[_ E]|[_ E]];
      rewrite E; intros H; inversion H; reflexivity.
  - unfold Verify. cbv zeta.
    destruct (Fq12_Equal (Bn_Pairing (PiA pi) (Vk_Vka (Vk setup))) _) eqn:E1;
      [|intros H; inversion H; reflexivity].
    destruct (Fq12_Equal (Bn_Pairing (Vk_Vkb (Vk setup)) (PiB pi)) _) eqn:E2;
      [|intros H; inversion H; reflexivity].
    destruct (Fq12_Equal (Bn_Pairing (PiC pi) (Vk_Vkc (Vk setup))) _) eqn:E3;
      [|intros H; inversion H; reflexivity].
    simpl negb. cbv iota.
    rewrite Verify_vkx_range_panics by assumption. discriminate.
Qed.

(** C1. For a Pinocchio proof and public signals that [vk.IC] covers,
    [Verify] returns (true, nil) if and only if the five pairing equations
    hold over the proof points and the rebuilt combination
    Vkx = IC[0] + sum_i publicSignals[i] * IC[i+1]; when one of them fails
    it returns (false, nil). *)
Theorem Verify_accepts_iff_five_equations setup pi publicSignals :
  (length publicSignals < length (Vk_IC (Vk setup)))%nat ->
  (Verify setup (PinocchioP pi) publicSignals = Returned (true, None) <->
   five_equations setup pi publicSignals) /\
  (~ five_equations setup pi publicSignals ->
   Verify setup (PinocchioP pi) publicSignals = Returned (false, None)).
Proof.
  intros H.
  destruct (@Verify_in_range setup pi publicSignals H) as [[H5 E]|[H5 E]]; rewrite E.
  - split; [tauto|contradiction].
  - split; [|reflexivity]. split; [discriminate|contradiction].
Qed.

(** C7. [Verify] returns an error exactly for a value that is not a
    Pinocchio proof; a Pinocchio proof that fails a pairing check gets
    (false, nil), and no Pinocchio proof ever gets a non-nil error. *)
Theorem Verify_error_only_for_foreign_proofs setup proof publicSignals :
  (forall ty, proof = ForeignP ty ->
     Verify setup proof publicSignals =
     Returned (false, Some "bad proof type"%string)) /\
  (forall pi, proof = PinocchioP pi ->
     (~ (pairing_eq1 setup pi /\ pairing_eq2 setup pi /\ pairing_eq3 setup pi) ->
      Verify setup proof publicSignals = Returned (false, None)) /\
     ((length publicSignals < length (Vk_IC (Vk setup)))%nat ->
      ~ five_equations setup pi publicSignals ->
      Verify setup proof publicSignals = Returned (false, None))) /\
  (forall b e, Verify setup proof publicSignals = Returned (b, Some e) ->
     exists ty, proof = ForeignP ty).
Proof.
  split; [|split].
  - intros ty ->. reflexivity.
  - intros pi ->. split.
    + apply Verify_first_three_fail.
    + intros H H5. destruct (@Verify_in_range setup pi publicSignals H) as [[H5' _]|[_ E]];
        [contradiction|exact E].
  - intros b e H. destruct proof as [pi|ty].
    + apply Verify_pinocchio_error_nil in H. discriminate.
    + exists ty. reflexivity.
Qed.

End VerifyTheorems.

(** ** The prover: what the proof holds and what is never checked *)

Section GenerateTheorems.

Context {F : Fields} {Cv : Curve}.

Lemma sumG1_firstn pts (w : list Z) (n : nat) idx : forall init,
  Forall (fun i => (i < n)%nat) idx ->
  sumG1 pts (firstn n w) idx init = sumG1 pts w idx init.
Proof.
  unfold sumG1. induction idx as [|i idx IH]; intros init Hall; [reflexivity|].
  inversion Hall as [|? ? Hi Hrest]; subst. simpl.
  rewrite nth_firstn. destruct (Nat.ltb_spec i n); [|lia].
  now apply IH.
Qed.

Lemma sumG2_firstn pts (w : list Z) (n : nat) idx : forall init,
  Forall (fun i => (i < n)%nat) idx ->
  sumG2 pts (firstn n w) idx init = sumG2 pts w idx init.
Proof.
  unfold sumG2. induction idx as [|i idx IH]; intros init Hall; [reflexivity|].
  inversion Hall as [|? ? Hi Hrest]; subst. simpl.
  rewrite nth_firstn. destruct (Nat.ltb_spec i n); [|lia].
  now apply IH.
Qed.

Lemma indices_between_below (lo hi : Z) :
  0 <= lo -> Forall (fun i => (i < Z.to_nat hi)%nat) (indices_between lo hi).
Proof.
  intros Hlo. apply Forall_forall. intros i Hi.
  apply in_indices_between in Hi; lia.
Qed.

(** Only the first [NVars] entries of the witness are read. *)
Lemma Generate_result_firstn setup cir (w px : list Z) :
  0 <= NPublic cir ->
  Generate_result setup cir (firstn (Z.to_nat (NVars cir)) w) px =
  Generate_result setup cir w px.
Proof.
  intros Hp. unfold Generate_result. cbv zeta.
  rewrite !sumG1_firstn, sumG2_firstn
    by (apply indices_between_below; lia).
  reflexivity.
Qed.

(** A witness shorter than [NVars] makes the second loop index out of
    range. *)
Lemma Generate_all_short setup (w : list Z) n : forall lo proof,
  (lo <= length w < lo + n)%nat ->
  for_loop n (Z.of_nat lo) (Generate_all setup w) proof = Panic.
Proof.
  induction n as [|n IH]; intros lo proof H; [lia|].
  simpl for_loop.
  destruct (Generate_all setup w (Z.of_nat lo) proof) as [p'|r|] eqn:E.
  - destruct (Nat.eq_dec lo (length w)) as [Heq|Hne].
    + exfalso. unfold Generate_all in E.
      rewrite (@index_none_high _ w) in E by (unfold len; lia).
      destruct (index (Pk_B (Pk setup)) (Z.of_nat lo)); discriminate.
    + replace (Z.of_nat lo + 1) with (Z.of_nat (Datatypes.S lo)) by lia.
      apply IH. lia.
  - exfalso. eapply Generate_all_no_return; eauto.
  - reflexivity.
Qed.

Lemma Generate_short_witness setup cir (w px : list Z) :
  len w < NVars cir -> Generate setup cir w px = Panicked.
Proof.
  intros H. unfold Generate. cbv zeta.
  destruct (for_range _ _ (Generate_private setup w) _) as [p1|r|] eqn:E1.
  - unfold for_range at 1. rewrite Z.sub_0_r.
    pose proof (@Generate_all_short setup w (Z.to_nat (NVars cir)) 0%nat p1) as L.
    change (Z.of_nat 0) with 0 in L.
    rewrite L; [reflexivity|unfold len in H; lia].
  - exfalso. eapply for_loop_no_return in E1; eauto using Generate_private_no_return.
  - reflexivity.
Qed.

(** C3. [Generate] starts every proof point at infinity, accumulates piA
    and piA' over the private indices NPublic < i < NVars only, and piB,
    piB', piC, piC' and piK over every index 0 <= i < NVars. *)
Theorem Generate_accumulates_proof_points setup cir w px :
  Generate_in_range setup cir w px ->
  G1_F_Zero = 0 ->
  Fq6_Zero = zeroG2 ->
  let private := indices_between (NPublic cir + 1) (NVars cir) in
  let all := indices_between 0 (NVars cir) in
  let hx := PF_DivisorPolynomial px (Pk_Z (Pk setup)) in
  let O1 := (G1_F_Zero, G1_F_Zero, G1_F_Zero) in
  (forall i, In i private <-> NPublic cir < Z.of_nat i < NVars cir) /\
  (forall i, In i all <-> 0 <= Z.of_nat i < NVars cir) /\
  G1_infinity O1 /\ G2_infinity Fq6_Zero /\
  new_proof = mkProof O1 O1 Fq6_Zero O1 O1 O1 O1 O1 /\
  exists pi,
    Generate setup cir w px = Returned (PinocchioP pi, None) /\
    PiA pi = sumG1 (Pk_A (Pk setup)) w private O1 /\
    PiAp pi = sumG1 (Pk_Ap (Pk setup)) w private O1 /\
    PiB pi = sumG2 (Pk_B (Pk setup)) w all Fq6_Zero /\
    PiBp pi = sumG1 (Pk_Bp (Pk setup)) w all O1 /\
    PiC pi = sumG1 (Pk_C (Pk setup)) w all O1 /\
    PiCp pi = sumG1 (Pk_Cp (Pk setup)) w all O1 /\
    PiKp pi = sumG1 (Pk_Kp (Pk setup)) w all O1 /\
    PiH pi = sumG1 (G1T setup) hx (indices_between 0 (len hx)) O1.
Proof.
  intros Hr HF0 H6. cbv zeta.
  pose proof (gir_public Hr) as Hp.
  split; [|split; [|split; [|split; [|split]]]].
  - intros i. rewrite in_indices_between by lia. lia.
  - intros i. apply in_indices_between. lia.
  - rewrite HF0. reflexivity.
  - rewrite H6. reflexivity.
  - reflexivity.
  - exists (Generate_result setup cir w px).
    split; [now apply Generate_returns|].
    repeat split; reflexivity.
Qed.

(** C2 (as the code has it). [Generate] does not look at the remainder of
    p(x) / Z(x): for every witness within the key, divisible or not, it
    returns a proof and a nil error; piH is accumulated from the quotient
    [DivisorPolynomial] returns, and two polynomials with the same quotient
    give the same proof. *)
Theorem Generate_ignores_remainder setup cir w px :
  Generate_in_range setup cir w px ->
  exists pi,
    Generate setup cir w px = Returned (PinocchioP pi, None) /\
    PiH pi =
      sumG1 (G1T setup) (PF_DivisorPolynomial px (Pk_Z (Pk setup)))
        (indices_between 0 (len (PF_DivisorPolynomial px (Pk_Z (Pk setup)))))
        (G1_F_Zero, G1_F_Zero, G1_F_Zero) /\
    forall px',
      PF_DivisorPolynomial px' (Pk_Z (Pk setup)) =
      PF_DivisorPolynomial px (Pk_Z (Pk setup)) ->
      Generate setup cir w px' = Returned (PinocchioP pi, None).
Proof.
  intros Hr. exists (Generate_result setup cir w px).
  split; [now apply Generate_returns|]. split; [reflexivity|].
  intros px' Hq.
  rewrite Generate_returns.
  - unfold Generate_result. cbv zeta. rewrite Hq. reflexivity.
  - destruct Hr. constructor; try assumption. now rewrite Hq.
Qed.

End GenerateTheorems.

(** C9 (as the code has it). Neither function validates a length or
    returns an argument error.  [Generate] returns no error at all: a
    witness shorter than NVars makes it panic on an index, a longer one is
    read up to NVars and gives the proof of its first NVars entries.
    [Verify] returns no error for a Pinocchio proof: with fewer signals than
    [vk.IC] has entries the verdict is that of the five checks over the
    signals given, and with as many or more it is (false, nil) when one of
    the first three checks fails and a panic on an index otherwise. *)
Theorem No_length_validation {F : Fields} {Cv : Curve} {Pr : PairingOps}
    setup cir (w px : list Z) pi (publicSignals : list Z) :
  (forall res, Generate setup cir w px = Returned res -> snd res = None) /\
  (len w < NVars cir -> Generate setup cir w px = Panicked) /\
  (NVars cir < len w -> Generate_in_range setup cir w px ->
     Generate setup cir w px =
     Returned (PinocchioP
                 (Generate_result setup cir (firstn (Z.to_nat (NVars cir)) w) px),
               None)) /\
  (forall res, Verify setup (PinocchioP pi) publicSignals = Returned res ->
     snd res = None) /\
  ((length publicSignals < length (Vk_IC (Vk setup)))%nat ->
     exists b, Verify setup (PinocchioP pi) publicSignals = Returned (b, None) /\
               (b = true <-> five_equations setup pi publicSignals)) /\
  ((length (Vk_IC (Vk setup)) <= length publicSignals)%nat ->
     (pairing_eq1 setup pi /\ pairing_eq2 setup pi /\ pairing_eq3 setup pi ->
      Verify setup (PinocchioP pi) publicSignals = Panicked) /\
     (~ (pairing_eq1 setup pi /\ pairing_eq2 setup pi /\ pairing_eq3 setup pi) ->
      Verify setup (PinocchioP pi) publicSignals = Returned (false, None))).
Proof.
  split; [|split; [|split; [|split; [|split]]]].
  - intros res. apply Generate_error_nil.
  - apply Generate_short_witness.
  - intros Hlong Hr. rewrite Generate_result_firstn by (destruct Hr; lia).
    now apply Generate_returns.
  - intros res. apply Verify_pinocchio_error_nil.
  - intros H. destruct (@Verify_in_range _ _ setup pi publicSignals H) as [[H5 E]|[H5 E]].
    + exists true. split; [exact E|tauto].
    + exists false. split; [exact E|]. split; [discriminate|contradiction].
  - intros H. split.
    + intros (E1 & E2 & E3). now apply Verify_out_of_range.
    + apply Verify_first_three_fail.
Qed.

(** ** The setup: what a run of [Init] leaves *)

Lemma filter_le_seq (c : Z) (n : nat) : forall lo,
  filter (fun i => Z.of_nat i <=? c) (seq lo n) =
  seq lo (Nat.min n (Z.to_nat (c + 1) - lo)).
Proof.
  induction n as [|n IH]; intros lo; [reflexivity|].
  simpl filter. rewrite IH.
  destruct (Z.leb_spec (Z.of_nat lo) c).
  - replace (Nat.min (Datatypes.S n) (Z.to_nat (c + 1) - lo))
      with (Datatypes.S (Nat.min n (Z.to_nat (c + 1) - Datatypes.S lo))) by lia.
    reflexivity.
  - replace (Nat.min n (Z.to_nat (c + 1) - Datatypes.S lo)) with 0%nat by lia.
    replace (Nat.min (Datatypes.S n) (Z.to_nat (c + 1) - lo)) with 0%nat by lia.
    reflexivity.
Qed.

Lemma firstn_seq_min (k : nat) : forall lo n,
  firstn k (seq lo n) = seq lo (Nat.min k n).
Proof.
  induction k as [|k IH]; intros lo [|n]; try reflexivity.
  simpl. now rewrite IH.
Qed.

Lemma nth_map_seq (A : Type) (f : nat -> A) (lo n k : nat) (d : A) :
  (k < n)%nat -> nth k (map f (seq lo n)) d = f (lo + k)%nat.
Proof.
  intros Hk.
  rewrite (nth_indep _ d (f 0%nat)) by (rewrite length_map, length_seq; lia).
  rewrite map_nth, seq_nth by lia. reflexivity.
Qed.

Lemma index_map_seq (A : Type) (f : nat -> A) (n : nat) (i : Z) :
  0 <= i < Z.of_nat n ->
  index (map f (seq 0 n)) i = Some (f (Z.to_nat i)).
Proof.
  intros Hi. unfold index.
  destruct (Z.ltb_spec i 0); [lia|].
  rewrite nth_error_map, nth_error_seq.
  destruct (Nat.ltb_spec (Z.to_nat i) n); [reflexivity|lia].
Qed.

Section InitTheorems.

Context {F : Fields} {Cv : Curve}.

(** C4. After [Init] on a setup whose A and IC are still empty, for a
    circuit with NVars signals: pk.A[i] = rhoA * alpha_i(t) * G1 for every
    signal i, and vk.IC is the prefix pk.A[0..NPublic], of length
    NPublic + 1. *)
Theorem Init_A_and_IC rand setup cir alphas betas gammas :
  Init_completes rand cir alphas betas gammas ->
  Pk_A (Pk setup) = [] ->
  Vk_IC (Vk setup) = [] ->
  NVars cir = len (Signals cir) ->
  0 <= NPublic cir < NVars cir ->
  exists s,
    Init rand setup cir alphas betas gammas = Returned (s, None) /\
    Toxic_T (Toxic s) = fst (rand 0%nat) /\
    Toxic_RhoA (Toxic s) = fst (rand 6%nat) /\
    len (Pk_A (Pk s)) = NVars cir /\
    (forall i, 0 <= i < NVars cir ->
       exists alpha_i,
         index alphas i = Some alpha_i /\
         index (Pk_A (Pk s)) i =
         Some (G1_MulScalar G1_G
                 (FqR_Mul (Toxic_RhoA (Toxic s))
                          (PF_Eval alpha_i (Toxic_T (Toxic s)))))) /\
    len (Vk_IC (Vk s)) = NPublic cir + 1 /\
    Vk_IC (Vk s) = firstn (Z.to_nat (NPublic cir + 1)) (Pk_A (Pk s)) /\
    (forall i, 0 <= i <= NPublic cir ->
       index (Vk_IC (Vk s)) i = index (Pk_A (Pk s)) i).
Proof.
  intros Hc HA HIC HN HP.
  exists (Init_result rand setup cir alphas betas gammas).
  split; [now apply Init_complete_run|].
  unfold len in *.
  assert (EA : Pk_A (Pk (Init_result rand setup cir alphas betas gammas)) =
               map (fun i => pk_a (drawn rand) (nth i alphas []))
                   (seq 0 (length (Signals cir)))).
  { unfold Init_result, Init_rows, Init_keys. simpl. now rewrite HA. }
  assert (EIC : Vk_IC (Vk (Init_result rand setup cir alphas betas gammas)) =
                map (fun i => pk_a (drawn rand) (nth i alphas []))
                    (seq 0 (Z.to_nat (NPublic cir + 1)))).
  { unfold Init_result, Init_rows, Init_keys. simpl. rewrite HIC. simpl.
    rewrite filter_le_seq. f_equal. f_equal. lia. }
  split; [reflexivity|]. split; [reflexivity|].
  rewrite EA, EIC.
  split; [rewrite length_map, length_seq; lia|].
  split.
  { intros i Hi. exists (nth (Z.to_nat i) alphas []). split.
    - rewrite <- (Z2Nat.id i) at 1 by lia. apply index_nth.
      pose proof (ic_alphas Hc). lia.
    - rewrite index_map_seq by lia. reflexivity. }
  split; [rewrite length_map, length_seq; lia|].
  split.
  { rewrite firstn_map, firstn_seq_min. f_equal. f_equal. lia. }
  intros i Hi. rewrite !index_map_seq by lia. reflexivity.
Qed.

(** C8 (as the code has it). [Init] hands out every point as the G1 or G2
    [MulScalar] call returned it, with no affine conversion: on a setup
    whose key slices are still empty, each slice of pk, [G1T] and each point
    of vk is the list of those values, and [G1T[0]] is the generator as
    given. *)
Theorem Init_outputs_are_raw_products rand setup cir alphas betas gammas :
  Init_completes rand cir alphas betas gammas ->
  Pk setup = Pk empty_setup ->
  Vk_IC (Vk setup) = [] ->
  exists s,
    Init rand setup cir alphas betas gammas = Returned (s, None) /\
    let tox := Toxic s in
    let signals := seq 0 (length (Signals cir)) in
    let al i := nth i alphas [] in
    let be i := nth i betas [] in
    let ga i := nth i gammas [] in
    let scalar_a i := FqR_Mul (Toxic_RhoA tox) (PF_Eval (al i) (Toxic_T tox)) in
    let scalar_b i := FqR_Mul (Toxic_RhoB tox) (PF_Eval (be i) (Toxic_T tox)) in
    let scalar_c i := FqR_Mul (Toxic_RhoC tox) (PF_Eval (ga i) (Toxic_T tox)) in
    let kbg := FqR_Mul (Toxic_Kbeta tox) (Toxic_Kgamma tox) in
    Pk_A (Pk s) = map (fun i => G1_MulScalar G1_G (scalar_a i)) signals /\
    Pk_B (Pk s) = map (fun i => G2_MulScalar G2_G (scalar_b i)) signals /\
    Pk_C (Pk s) = map (fun i => G1_MulScalar G1_G (scalar_c i)) signals /\
    Pk_Ap (Pk s) =
      map (fun i => G1_MulScalar (G1_MulScalar G1_G (scalar_a i)) (Toxic_Ka tox))
          signals /\
    Pk_Bp (Pk s) =
      map (fun i => G1_MulScalar (G1_MulScalar G1_G (scalar_b i)) (Toxic_Kb tox))
          signals /\
    Pk_Cp (Pk s) =
      map (fun i => G1_MulScalar (G1_MulScalar G1_G (scalar_c i)) (Toxic_Kc tox))
          signals /\
    Pk_Kp (Pk s) =
      map (fun i =>
             G1_MulScalar
               (G1_MulScalar G1_G
                  (FqR_Add (FqR_Add (scalar_a i) (scalar_b i)) (scalar_c i)))
               (Toxic_Kbeta tox))
          signals /\
    G1T s =
      G1_G :: map (fun k => G1_MulScalar G1_G (t_power (Toxic_T tox) k))
                  (seq 1 (length (Pk_Z (Pk s)) - 1)) /\
    Vk_IC (Vk s) =
      map (fun i => G1_MulScalar G1_G (scalar_a i))
          (filter (fun i => Z.of_nat i <=? NPublic cir) signals) /\
    Vk_Vka (Vk s) = G2_MulScalar G2_G (Toxic_Ka tox) /\
    Vk_Vkb (Vk s) = G1_MulScalar G1_G (Toxic_Kb tox) /\
    Vk_Vkc (Vk s) = G2_MulScalar G2_G (Toxic_Kc tox) /\
    Vk_G1Kbg (Vk s) = G1_MulScalar G1_G kbg /\
    Vk_G2Kbg (Vk s) = G2_MulScalar G2_G kbg /\
    Vk_G2Kg (Vk s) = G2_MulScalar G2_G (Toxic_Kgamma tox) /\
    Vk_Vkz (Vk s) =
      G2_MulScalar G2_G
        (FqR_Mul (Toxic_RhoC tox) (PF_Eval (Pk_Z (Pk s)) (Toxic_T tox))).
Proof.
  intros Hc HPk HIC.
  exists (Init_result rand setup cir alphas betas gammas).
  split; [now apply Init_complete_run|].
  unfold Init_result, Init_rows, Init_keys. simpl.
  rewrite HPk, HIC. simpl.
  repeat split; reflexivity.
Qed.

(** C10. When the consistency check of some signal [j] fails, and those of
    the signals before it pass, [Init] returns there with a nil error: the
    caller gets no sign of the failure, and the setup is left partly
    filled, with the A, B and C entries up to [j], the shifted and combined
    entries up to [j - 1], and Z, Vkz and G1T untouched. *)
Theorem Init_failed_check_returns_nil rand setup cir alphas betas gammas (j : nat) :
  rand_ok rand ->
  (j < length (Signals cir))%nat ->
  (j < length alphas)%nat -> (j < length betas)%nat -> (j < length gammas)%nat ->
  (forall i, (i < j)%nat ->
     consistent (drawn rand) (nth i alphas []) (nth i betas []) (nth i gammas []) = true) ->
  consistent (drawn rand) (nth j alphas []) (nth j betas []) (nth j gammas []) = false ->
  exists s,
    Init rand setup cir alphas betas gammas = Returned (s, None) /\
    length (Pk_A (Pk s)) = (length (Pk_A (Pk setup)) + j + 1)%nat /\
    length (Pk_B (Pk s)) = (length (Pk_B (Pk setup)) + j + 1)%nat /\
    length (Pk_C (Pk s)) = (length (Pk_C (Pk setup)) + j + 1)%nat /\
    length (Pk_Ap (Pk s)) = (length (Pk_Ap (Pk setup)) + j)%nat /\
    length (Pk_Bp (Pk s)) = (length (Pk_Bp (Pk setup)) + j)%nat /\
    length (Pk_Cp (Pk s)) = (length (Pk_Cp (Pk setup)) + j)%nat /\
    length (Pk_Kp (Pk s)) = (length (Pk_Kp (Pk setup)) + j)%nat /\
    Pk_Z (Pk s) = Pk_Z (Pk setup) /\
    Vk_Vkz (Vk s) = Vk_Vkz (Vk setup) /\
    G1T s = G1T setup.
Proof.
  intros Hr Hj Ha Hb Hg Hc Hf.
  exists (Init_half_row (drawn rand) cir alphas betas gammas j
            (Init_rows (drawn rand) cir alphas betas gammas (seq 0 j)
               (Init_keys rand setup))).
  split; [apply Init_failed_check; assumption|].
  unfold Init_half_row, Init_rows, Init_keys. simpl.
  rewrite !length_app, !length_map, !length_seq. simpl.
  repeat split; lia.
Qed.

End InitTheorems.

Section InitTargetTheorems.

Import SpecModel.

Context {Cv : Curve}.

Variable p : Z.

(** C5 (as the code has it). In the modelled field of prime modulus [p],
    after [Init] over a QAP of [n = len(alphas)] polynomial triples (one
    per signal), [Pk.Z] is the product of (x - i) for i = 1, ..., n - 2:
    monic, of degree n - 2, with exactly the roots 1, ..., n - 2.  The
    number of constraints does not enter. *)
Theorem Init_target_polynomial rand setup cir alphas betas gammas :
  Z.prime p ->
  @Init_completes (SpecFields p) Cv rand cir alphas betas gammas ->
  let k := Z.to_nat (len alphas - 2) in
  exists s,
    @Init (SpecFields p) Cv rand setup cir alphas betas gammas = Returned (s, None) /\
    Pk_Z (Pk s) = target_polynomial p k /\
    length (Pk_Z (Pk s)) = Datatypes.S k /\
    last (Pk_Z (Pk s)) 0 = 1 /\
    pf_degree (Pk_Z (Pk s)) = k /\
    (forall x, pf_eval p (Pk_Z (Pk s)) x = zprod x k mod p) /\
    (forall x, pf_eval p (Pk_Z (Pk s)) x = 0 <->
               exists i, 1 <= i <= Z.of_nat k /\ (x - i) mod p = 0).
Proof.
  intros Hprime Hc k.
  assert (Hp : 1 < p) by (destruct Hprime; assumption).
  exists (@Init_result (SpecFields p) Cv rand setup cir alphas betas gammas).
  split; [now apply Init_complete_run|].
  assert (EZ : Pk_Z (Pk (@Init_result (SpecFields p) Cv rand setup cir alphas betas gammas))
               = target_polynomial p k).
  { unfold Init_result. simpl. now apply zpol_of_target. }
  rewrite EZ.
  split; [reflexivity|].
  split; [now apply target_polynomial_length|].
  split; [now apply target_polynomial_monic|].
  split; [now apply target_polynomial_degree|].
  split; [intros x; now apply target_polynomial_eval|].
  intros x. rewrite target_polynomial_eval by assumption.
  now apply zprod_roots.
Qed.

(** C6. In the modelled field, after [Init] the powers-of-t base [G1T] has
    deg(Z) + 1 entries: [G1T[0]] is the G1 generator and
    [G1T[k] = t^k * G1] for every k up to deg(Z). *)
Theorem Init_G1T_powers_of_t rand setup cir alphas betas gammas :
  1 < p ->
  0 <= fst (rand 0%nat) < p ->
  @Init_completes (SpecFields p) Cv rand cir alphas betas gammas ->
  exists s,
    @Init (SpecFields p) Cv rand setup cir alphas betas gammas = Returned (s, None) /\
    Toxic_T (Toxic s) = fst (rand 0%nat) /\
    length (G1T s) = Datatypes.S (pf_degree (Pk_Z (Pk s))) /\
    nth 0%nat (G1T s) zeroG1 = G1_G /\
    (forall k, (1 <= k <= pf_degree (Pk_Z (Pk s)))%nat ->
       nth k (G1T s) zeroG1 =
       G1_MulScalar G1_G (Toxic_T (Toxic s) ^ Z.of_nat k mod p)).
Proof.
  intros Hp Ht Hc.
  exists (@Init_result (SpecFields p) Cv rand setup cir alphas betas gammas).
  split; [now apply Init_complete_run|].
  split; [reflexivity|].
  unfold Init_result. cbn [G1T Pk Pk_Z set_Pk_Z Toxic Toxic_T drawn].
  rewrite zpol_of_target by assumption.
  rewrite target_polynomial_degree by assumption.
  unfold g1t_of. rewrite target_polynomial_length by assumption.
  replace (Datatypes.S (Z.to_nat (len alphas - 2)) - 1)%nat
    with (Z.to_nat (len alphas - 2)) by lia.
  split; [simpl; rewrite length_map, length_seq; reflexivity|].
  split; [reflexivity|].
  intros k Hk. destruct k as [|k']; [lia|].
  cbn [nth]. rewrite nth_map_seq by lia.
  rewrite t_power_pow by (auto; lia). reflexivity.
Qed.

End InitTargetTheorems.

(** ** The modelled helpers on small inputs *)

Example g1_gen_on_curve :
  SpecModel.fp_mul SpecModel.q 2 2 =
  SpecModel.fp_add SpecModel.q (SpecModel.fp_mul SpecModel.q 1 (SpecModel.fp_mul SpecModel.q 1 1)) 3.
Proof. vm_compute. reflexivity. Qed.

(** The twist equation Y^2 = X^3 + 3/(9+u), multiplied through by 9+u. *)
Example g2_gen_on_twist :
  let '(x, y, _) := SpecModel.g2_gen in
  let mul := SpecModel.fp2_mul SpecModel.q in
  mul (mul y y) (9, 1) =
  SpecModel.fp2_add SpecModel.q (mul (mul x (mul x x)) (9, 1)) (3, 0).
Proof. vm_compute. reflexivity. Qed.

Example g1_two_plus_three :
  let mul := SpecModel.jac_mul (SpecModel.Fp SpecModel.q) SpecModel.g1_gen in
  SpecModel.g1_affine SpecModel.q
    (SpecModel.jac_add (SpecModel.Fp SpecModel.q) (mul 2) (mul 3)) =
  SpecModel.g1_affine SpecModel.q (mul 5).
Proof. vm_compute. reflexivity. Qed.

Example pf_div_exact :
  SpecModel.pf_div 97 (SpecModel.pf_mul 97 [2; 94; 1] [96; 1]) [96; 1] =
  ([2; 94; 1], []).
Proof. vm_compute. reflexivity. Qed.

Example pf_div_remainder :
  SpecModel.pf_div 97 [1; 2; 3; 4; 5] [96; 0; 1] = ([8; 4; 5], [9; 6]).
Proof. vm_compute. reflexivity. Qed.

Example pf_lagrange_interpolates :
  map (SpecModel.pf_eval 97 (SpecModel.pf_lagrange 97 [5; 7; 11])) [1; 2; 3] =
  [5; 7; 11].
Proof. vm_compute. reflexivity. Qed.

(** The honest demo witness satisfies the constraint and leaves no
    remainder; the tampered one leaves r - 1. *)
Example Demo_honest_divides :
  SpecModel.pf_div SpecModel.r Demo.px (Pk_Z (Pk Demo.setup)) = ([], []).
Proof. vm_compute. reflexivity. Qed.

Example Demo_tampered_remainder :
  SpecModel.pf_div SpecModel.r Demo.px_tampered (Pk_Z (Pk Demo.setup)) =
  ([], [SpecModel.r - 1]).
Proof. vm_compute. reflexivity. Qed.

(** ** The demo circuit: facts for the concrete runs *)

Lemma prime_7 : Z.prime 7.
Proof.
  split; [lia|].
  intros n Hn [k Hk].
  assert (Hcases : n = 2 \/ n = 3 \/ n = 4 \/ n = 5 \/ n = 6) by lia.
  destruct Hcases as [->|[->|[->|[->| ->]]]]; lia.
Qed.

Lemma Demo_rand_ok : rand_ok Demo.rand.
Proof. intros k _. reflexivity. Qed.

Lemma Demo_rand7_ok : rand_ok Demo.rand7.
Proof. intros k _. reflexivity. Qed.

Lemma Demo_rand_wrap_ok : rand_ok Demo.rand_wrap.
Proof. intros k _. reflexivity. Qed.

Lemma Demo_completes :
  @Init_completes Demo.fields Demo.curve Demo.rand Demo.cir
    Demo.alphas Demo.betas Demo.gammas.
Proof.
  constructor.
  - exact Demo_rand_ok.
  - vm_compute. lia.
  - vm_compute. lia.
  - vm_compute. lia.
  - intros i Hi. change (length (Signals Demo.cir)) with 3%nat in Hi.
    destruct i as [|[|[|i]]]; [vm_compute; reflexivity ..|lia].
Qed.

Lemma Demo7_completes :
  @Init_completes Demo.fields7 Demo.curve Demo.rand7 Demo.cir
    Demo.alphas7 Demo.betas7 Demo.gammas7.
Proof.
  constructor.
  - exact Demo_rand7_ok.
  - vm_compute. lia.
  - vm_compute. lia.
  - vm_compute. lia.
  - intros i Hi. change (length (Signals Demo.cir)) with 3%nat in Hi.
    destruct i as [|[|[|i]]]; [vm_compute; reflexivity ..|lia].
Qed.

(** [Demo.setup] is what [Init] returns on the demo inputs. *)
Lemma Demo_setup_from_Init :
  @Init Demo.fields Demo.curve Demo.rand empty_setup Demo.cir
    Demo.alphas Demo.betas Demo.gammas = Returned (Demo.setup, None).
Proof.
  rewrite (Init_complete_run empty_setup Demo_completes).
  vm_compute. reflexivity.
Qed.

Lemma Demo_in_range (w px : list Z) :
  (3 <=? len w) = true ->
  (len (@PF_DivisorPolynomial Demo.fields px (Pk_Z (Pk Demo.setup))) <=? 2) = true ->
  @Generate_in_range Demo.fields Demo.setup Demo.cir w px.
Proof.
  intros Hw Hh. apply Z.leb_le in Hw. apply Z.leb_le in Hh.
  constructor; try exact Hw; try exact Hh;
    try (apply Z.leb_le; vm_compute; reflexivity).
  split; [apply Z.leb_le|apply Z.ltb_lt]; vm_compute; reflexivity.
Qed.

(** [Demo.proof] is what [Generate] returns for the honest witness. *)
Lemma Demo_proof_from_Generate :
  @Generate Demo.fields Demo.curve Demo.setup Demo.cir Demo.w Demo.px =
  Returned (PinocchioP Demo.proof, None).
Proof.
  rewrite Generate_returns
    by (apply Demo_in_range; vm_compute; reflexivity).
  vm_compute. reflexivity.
Qed.

(** ** The theorems at the demo circuit, and where the code departs from
    the specification *)

Lemma Verify_accepts_iff_five_equations_witness :
  (length [9] < length (Vk_IC (Vk Demo.setup)))%nat /\
  ((@Verify Demo.curve FreePairing.Ops Demo.setup (PinocchioP Demo.proof) [9] =
    Returned (true, None) <->
    @five_equations Demo.curve FreePairing.Ops Demo.setup Demo.proof [9]) /\
   (~ @five_equations Demo.curve FreePairing.Ops Demo.setup Demo.proof [9] ->
    @Verify Demo.curve FreePairing.Ops Demo.setup (PinocchioP Demo.proof) [9] =
    Returned (false, None))).
Proof.
  split.
  - cbn. lia.
  - apply (@Verify_accepts_iff_five_equations Demo.curve FreePairing.Ops).
    cbn. lia.
Defined.

(** The demo witness with its output tampered: p(x) leaves a nonzero
    remainder modulo Z(x), and [Generate], on the setup [Init] returned,
    still returns a proof and a nil error. *)
Lemma Generate_tampered_witness_returns_proof :
  @Init Demo.fields Demo.curve Demo.rand empty_setup Demo.cir
    Demo.alphas Demo.betas Demo.gammas = Returned (Demo.setup, None) /\
  snd (SpecModel.pf_div SpecModel.r Demo.px_tampered (Pk_Z (Pk Demo.setup))) <> [] /\
  exists pi,
    @Generate Demo.fields Demo.curve Demo.setup Demo.cir
      Demo.w_tampered Demo.px_tampered = Returned (PinocchioP pi, None).
Proof.
  split; [exact Demo_setup_from_Init|]. split.
  - vm_compute. discriminate.
  - eexists. apply Generate_returns. apply Demo_in_range; vm_compute; reflexivity.
Qed.

Lemma Generate_ignores_remainder_witness :
  @Generate_in_range Demo.fields Demo.setup Demo.cir Demo.w_tampered Demo.px_tampered /\
  exists pi,
    @Generate Demo.fields Demo.curve Demo.setup Demo.cir
      Demo.w_tampered Demo.px_tampered = Returned (PinocchioP pi, None) /\
    PiH pi =
      @sumG1 Demo.curve (G1T Demo.setup)
        (@PF_DivisorPolynomial Demo.fields Demo.px_tampered (Pk_Z (Pk Demo.setup)))
        (indices_between 0
           (len (@PF_DivisorPolynomial Demo.fields Demo.px_tampered
                   (Pk_Z (Pk Demo.setup)))))
        (@G1_F_Zero Demo.curve, @G1_F_Zero Demo.curve, @G1_F_Zero Demo.curve) /\
    forall px',
      @PF_DivisorPolynomial Demo.fields px' (Pk_Z (Pk Demo.setup)) =
      @PF_DivisorPolynomial Demo.fields Demo.px_tampered (Pk_Z (Pk Demo.setup)) ->
      @Generate Demo.fields Demo.curve Demo.setup Demo.cir Demo.w_tampered px' =
      Returned (PinocchioP pi, None).
Proof.
  assert (H : @Generate_in_range Demo.fields Demo.setup Demo.cir
                Demo.w_tampered Demo.px_tampered)
    by (apply Demo_in_range; vm_compute; reflexivity).
  split; [exact H|].
  exact (@Generate_ignores_remainder Demo.fields Demo.curve Demo.setup Demo.cir
           Demo.w_tampered Demo.px_tampered H).
Defined.

Lemma Generate_accumulates_proof_points_witness :
  @Generate_in_range Demo.fields Demo.setup Demo.cir Demo.w Demo.px /\
  @G1_F_Zero Demo.curve = 0 /\
  @Fq6_Zero Demo.curve = zeroG2 /\
  exists pi,
    @Generate Demo.fields Demo.curve Demo.setup Demo.cir Demo.w Demo.px =
    Returned (PinocchioP pi, None) /\
    PiA pi = @sumG1 Demo.curve (Pk_A (Pk Demo.setup)) Demo.w [2%nat] (0, 0, 0) /\
    PiB pi = @sumG2 Demo.curve (Pk_B (Pk Demo.setup)) Demo.w [0%nat; 1%nat; 2%nat]
               ((0, 0), (0, 0), (0, 0)).
Proof.
  assert (H : @Generate_in_range Demo.fields Demo.setup Demo.cir Demo.w Demo.px)
    by (apply Demo_in_range; vm_compute; reflexivity).
  split; [exact H|]. split; [reflexivity|]. split; [reflexivity|].
  destruct (@Generate_accumulates_proof_points Demo.fields Demo.curve
              Demo.setup Demo.cir Demo.w Demo.px H eq_refl eq_refl)
    as (_ & _ & _ & _ & _ & pi & E & EA & _ & EB & _).
  exists pi. split; [exact E|]. split; [exact EA|exact EB].
Defined.

Lemma Init_A_and_IC_witness :
  @Init_completes Demo.fields Demo.curve Demo.rand Demo.cir
    Demo.alphas Demo.betas Demo.gammas /\
  Pk_A (Pk empty_setup) = [] /\ Vk_IC (Vk empty_setup) = [] /\
  NVars Demo.cir = len (Signals Demo.cir) /\
  0 <= NPublic Demo.cir < NVars Demo.cir /\
  exists s,
    @Init Demo.fields Demo.curve Demo.rand empty_setup Demo.cir
      Demo.alphas Demo.betas Demo.gammas = Returned (s, None) /\
    len (Pk_A (Pk s)) = 3 /\
    len (Vk_IC (Vk s)) = 2 /\
    Vk_IC (Vk s) = firstn 2 (Pk_A (Pk s)).
Proof.
  split; [exact Demo_completes|]. split; [reflexivity|]. split; [reflexivity|].
  split; [reflexivity|]. split; [cbn; lia|].
  destruct (@Init_A_and_IC Demo.fields Demo.curve Demo.rand empty_setup Demo.cir
              Demo.alphas Demo.betas Demo.gammas Demo_completes eq_refl eq_refl
              eq_refl (conj (proj1 (Z.leb_le 0 1) eq_refl) (proj1 (Z.ltb_lt 1 3) eq_refl)))
    as (s & E & _ & _ & HA & _ & HIC & Hpre & _).
  exists s. split; [exact E|]. split; [exact HA|]. split; [exact HIC|exact Hpre].
Defined.

(** A circuit with one constraint (m = 1) and three signals: the
    specification's product over i = 1, ..., m - 1 is the constant 1, while
    [Init] stores x - 1, the product over i = 1, ..., n - 2 for the n = 3
    polynomial triples. *)
Lemma Init_target_follows_signal_count :
  (Demo.alphas, Demo.betas, Demo.gammas) =
    SpecModel.R1CSToQAP SpecModel.r Demo.r1cs_a Demo.r1cs_b Demo.r1cs_c /\
  length Demo.r1cs_a = 1%nat /\
  length Demo.alphas = 3%nat /\
  exists s,
    @Init Demo.fields Demo.curve Demo.rand empty_setup Demo.cir
      Demo.alphas Demo.betas Demo.gammas = Returned (s, None) /\
    Pk_Z (Pk s) <> target_polynomial SpecModel.r (1 - 1) /\
    Pk_Z (Pk s) = target_polynomial SpecModel.r (3 - 2) /\
    Pk_Z (Pk s) = [SpecModel.r - 1; 1].
Proof.
  split; [reflexivity|]. split; [reflexivity|]. split; [reflexivity|].
  exists Demo.setup. split; [exact Demo_setup_from_Init|].
  split; [vm_compute; discriminate|]. split; vm_compute; reflexivity.
Qed.

Lemma Init_target_polynomial_witness :
  Z.prime 7 /\
  @Init_completes Demo.fields7 Demo.curve Demo.rand7 Demo.cir
    Demo.alphas7 Demo.betas7 Demo.gammas7 /\
  exists s,
    @Init Demo.fields7 Demo.curve Demo.rand7 empty_setup Demo.cir
      Demo.alphas7 Demo.betas7 Demo.gammas7 = Returned (s, None) /\
    Pk_Z (Pk s) = target_polynomial 7 1 /\
    (forall x, SpecModel.pf_eval 7 (Pk_Z (Pk s)) x = 0 <->
               exists i, 1 <= i <= 1 /\ (x - i) mod 7 = 0).
Proof.
  split; [exact prime_7|]. split; [exact Demo7_completes|].
  destruct (@Init_target_polynomial Demo.curve 7 Demo.rand7 empty_setup Demo.cir
              Demo.alphas7 Demo.betas7 Demo.gammas7 prime_7 Demo7_completes)
    as (s & E & EZ & _ & _ & _ & _ & Hroots).
  exists s. split; [exact E|]. split; [exact EZ|exact Hroots].
Defined.

Lemma Init_G1T_powers_of_t_witness :
  1 < SpecModel.r /\
  0 <= fst (Demo.rand 0%nat) < SpecModel.r /\
  @Init_completes Demo.fields Demo.curve Demo.rand Demo.cir
    Demo.alphas Demo.betas Demo.gammas /\
  exists s,
    @Init Demo.fields Demo.curve Demo.rand empty_setup Demo.cir
      Demo.alphas Demo.betas Demo.gammas = Returned (s, None) /\
    length (G1T s) = Datatypes.S (SpecModel.pf_degree (Pk_Z (Pk s))) /\
    nth 0%nat (G1T s) zeroG1 = @G1_G Demo.curve.
Proof.
  assert (H1 : 1 < SpecModel.r) by (apply Z.ltb_lt; vm_compute; reflexivity).
  assert (H2 : 0 <= fst (Demo.rand 0%nat) < SpecModel.r)
    by (split; [apply Z.leb_le|apply Z.ltb_lt]; vm_compute; reflexivity).
  split; [exact H1|]. split; [exact H2|]. split; [exact Demo_completes|].
  destruct (@Init_G1T_powers_of_t Demo.curve SpecModel.r Demo.rand empty_setup
              Demo.cir Demo.alphas Demo.betas Demo.gammas H1 H2 Demo_completes)
    as (s & E & _ & HL & H0 & _).
  exists s. split; [exact E|]. split; [exact HL|exact H0].
Defined.

(** The entry of the private signal in pk.A, as [Init] hands it out: its
    Z coordinate is 4, not 1. *)
Lemma Init_hands_out_projective_point :
  exists s,
    @Init Demo.fields Demo.curve Demo.rand empty_setup Demo.cir
      Demo.alphas Demo.betas Demo.gammas = Returned (s, None) /\
    exists x y z,
      index (Pk_A (Pk s)) 2 = Some (x, y, z) /\ z = 4 /\ z <> 1.
Proof.
  exists Demo.setup. split; [exact Demo_setup_from_Init|].
  eexists _, _, _. split; [vm_compute; reflexivity|].
  split; [reflexivity|discriminate].
Qed.

Lemma Init_outputs_are_raw_products_witness :
  @Init_completes Demo.fields Demo.curve Demo.rand Demo.cir
    Demo.alphas Demo.betas Demo.gammas /\
  Pk empty_setup = Pk empty_setup /\
  Vk_IC (Vk empty_setup) = [] /\
  exists s,
    @Init Demo.fields Demo.curve Demo.rand empty_setup Demo.cir
      Demo.alphas Demo.betas Demo.gammas = Returned (s, None) /\
    Vk_Vkb (Vk s) = @G1_MulScalar Demo.curve (@G1_G Demo.curve) (Toxic_Kb (Toxic s)).
Proof.
  split; [exact Demo_completes|]. split; [reflexivity|]. split; [reflexivity|].
  destruct (@Init_outputs_are_raw_products Demo.fields Demo.curve Demo.rand
              empty_setup Demo.cir Demo.alphas Demo.betas Demo.gammas
              Demo_completes eq_refl eq_refl)
    as (s & E & H).
  exists s. split; [exact E|]. apply H.
Defined.

(** A witness one entry longer than NVars: [Generate] reads its first
    three entries and returns a proof and a nil error. *)
Lemma Generate_long_witness_returns_proof :
  len Demo.w_long <> NVars Demo.cir /\
  exists pi,
    @Generate Demo.fields Demo.curve Demo.setup Demo.cir Demo.w_long Demo.px =
    Returned (PinocchioP pi, None).
Proof.
  split; [vm_compute; discriminate|].
  eexists. apply Generate_returns. apply Demo_in_range; vm_compute; reflexivity.
Qed.

Lemma Init_failed_check_returns_nil_witness :
  rand_ok Demo.rand_wrap /\
  (0 < length (Signals Demo.one_signal))%nat /\
  (0 < length [[1]])%nat /\
  (forall i, (i < 0)%nat ->
     @consistent Demo.fields7 Demo.curve (@drawn Demo.fields7 Demo.rand_wrap)
       (nth i [[1]] []) (nth i [[1]] []) (nth i [[1]] []) = true) /\
  @consistent Demo.fields7 Demo.curve (@drawn Demo.fields7 Demo.rand_wrap)
    (nth 0 [[1]] []) (nth 0 [[1]] []) (nth 0 [[1]] []) = false /\
  exists s,
    @Init Demo.fields7 Demo.curve Demo.rand_wrap empty_setup Demo.one_signal
      [[1]] [[1]] [[1]] = Returned (s, None) /\
    length (Pk_A (Pk s)) = 1%nat /\
    length (Pk_Ap (Pk s)) = 0%nat /\
    G1T s = [].
Proof.
  assert (Hbefore : forall i, (i < 0)%nat ->
     @consistent Demo.fields7 Demo.curve (@drawn Demo.fields7 Demo.rand_wrap)
       (nth i [[1]] []) (nth i [[1]] []) (nth i [[1]] []) = true)
    by (intros i Hi; lia).
  assert (Hfail : @consistent Demo.fields7 Demo.curve
                    (@drawn Demo.fields7 Demo.rand_wrap)
                    (nth 0 [[1]] []) (nth 0 [[1]] []) (nth 0 [[1]] []) = false)
    by (vm_compute; reflexivity).
  split; [exact Demo_rand_wrap_ok|]. split; [cbn; lia|]. split; [cbn; lia|].
  split; [exact Hbefore|]. split; [exact Hfail|].
  destruct (@Init_failed_check_returns_nil Demo.fields7 Demo.curve Demo.rand_wrap
              empty_setup Demo.one_signal [[1]] [[1]] [[1]] 0%nat
              Demo_rand_wrap_ok (le_n 1) (le_n 1) (le_n 1) (le_n 1) Hbefore Hfail)
    as (s & E & HA & _ & _ & HAp & _ & _ & _ & _ & _ & HG).
  exists s. split; [exact E|]. split; [exact HA|]. split; [exact HAp|exact HG].
Defined.

Lemma Verify_error_only_for_foreign_proofs_witness :
  @Verify Demo.curve FreePairing.Ops Demo.setup (ForeignP "*proof.Groth16Proof")
    [9] = Returned (false, Some "bad proof type"%string) /\
  (~ (@pairing_eq1 Demo.curve FreePairing.Ops Demo.setup Demo.proof /\
      @pairing_eq2 Demo.curve FreePairing.Ops Demo.setup Demo.proof /\
      @pairing_eq3 Demo.curve FreePairing.Ops Demo.setup Demo.proof) ->
   @Verify Demo.curve FreePairing.Ops Demo.setup (PinocchioP Demo.proof) [9] =
   Returned (false, None)).
Proof.
  split.
  - exact (proj1 (@Verify_error_only_for_foreign_proofs Demo.curve FreePairing.Ops
                    Demo.setup (ForeignP "*proof.Groth16Proof") [9])
                 "*proof.Groth16Proof"%string eq_refl).
  - exact (proj1 (proj1 (proj2 (@Verify_error_only_for_foreign_proofs Demo.curve
                                  FreePairing.Ops Demo.setup
                                  (PinocchioP Demo.proof) [9]))
                        Demo.proof eq_refl)).
Defined.

Lemma No_length_validation_witness :
  NVars Demo.cir < len Demo.w_long /\
  @Generate_in_range Demo.fields Demo.setup Demo.cir Demo.w_long Demo.px /\
  @Generate Demo.fields Demo.curve Demo.setup Demo.cir Demo.w_long Demo.px =
  Returned (PinocchioP
              (@Generate_result Demo.fields Demo.curve Demo.setup Demo.cir
                 (firstn (Z.to_nat (NVars Demo.cir)) Demo.w_long) Demo.px),
            None) /\
  (len [1; 9] < NVars Demo.cir ->
   @Generate Demo.fields Demo.curve Demo.setup Demo.cir [1; 9] Demo.px = Panicked).
Proof.
  assert (H1 : NVars Demo.cir < len Demo.w_long)
    by (apply Z.ltb_lt; vm_compute; reflexivity).
  assert (H2 : @Generate_in_range Demo.fields Demo.setup Demo.cir Demo.w_long Demo.px)
    by (apply Demo_in_range; vm_compute; reflexivity).
  split; [exact H1|]. split; [exact H2|]. split.
  - exact (proj1 (proj2 (proj2
             (@No_length_validation Demo.fields Demo.curve FreePairing.Ops
                Demo.setup Demo.cir Demo.w_long Demo.px Demo.proof [9]))) H1 H2).
  - exact (proj1 (proj2
             (@No_length_validation Demo.fields Demo.curve FreePairing.Ops
                Demo.setup Demo.cir [1; 9] Demo.px Demo.proof [9]))).
Defined.

(** ** Further properties of the three functions *)

Lemma for_loop_inv (S R : Type) (body : Z -> S -> ctl S R)
    (Q : S -> Prop) (P : R -> Prop) :
  (forall i s, Q s ->
     match body i s with
     | Continue s' => Q s'
     | Return r => P r
     | Panic => True
     end) ->
  forall n i s, Q s ->
    match for_loop n i body s with
    | Continue s' => Q s'
    | Return r => P r
    | Panic => True
    end.
Proof.
  intros Hb n. induction n as [|n IH]; intros i s HQ; simpl; [exact HQ|].
  specialize (Hb i s HQ).
  destruct (body i s) as [s'|r|]; [apply IH; exact Hb|exact Hb|exact I].
Qed.

Lemma for_loop_split (S R : Type) (body : Z -> S -> ctl S R) (a : nat) :
  forall b i s,
    for_loop (a + b) i body s =
    match for_loop a i body s with
    | Continue s' => for_loop b (i + Z.of_nat a) body s'
    | Return r => Return r
    | Panic => Panic
    end.
Proof.
  induction a as [|a IH]; intros b i s.
  - simpl. now rewrite Z.add_0_r.
  - simpl for_loop. destruct (body i s); try reflexivity.
    rewrite IH. replace (i + 1 + Z.of_nat a) with (i + Z.of_nat (Datatypes.S a)) by lia.
    reflexivity.
Qed.

Lemma for_loop_ext (S R : Type) (body body' : Z -> S -> ctl S R) :
  (forall i s, body i s = body' i s) ->
  forall n i s, for_loop n i body s = for_loop n i body' s.
Proof.
  intros He n. induction n as [|n IH]; intros i s; simpl; [reflexivity|].
  rewrite He. destruct (body' i s); auto.
Qed.

Lemma index_negative (A : Type) (l : list A) (i : Z) : i < 0 -> index l i = None.
Proof.
  unfold index. intros Hi. apply Z.ltb_lt in Hi. now rewrite Hi.
Qed.

Lemma index_Some_bound (A : Type) (l : list A) (i : nat) (x : A) :
  index l (Z.of_nat i) = Some x -> (i < length l)%nat.
Proof.
  unfold index. destruct (Z.of_nat i <? 0) eqn:E; [discriminate|].
  rewrite Nat2Z.id. intros H. apply nth_error_Some. congruence.
Qed.

Section InitEdges.

Context {F : Fields} {Cv : Curve}.

(** Whatever a signal's round does, the toxic scalars stay, and a return
    from it carries the error it was given. *)
Lemma Init_signal_keeps err tox cir alphas betas gammas i s :
  Toxic s = tox ->
  match Init_signal err cir alphas betas gammas i s with
  | Continue s' => Toxic s' = tox
  | Return r => snd r = err /\ Toxic (fst r) = tox
  | Panic => True
  end.
Proof.
  intros Ht. unfold Init_signal.
  destruct (index alphas i); [|exact I].
  destruct (index betas i); [|exact I].
  destruct (index gammas i); [|exact I].
  destruct (i <=? NPublic cir);
    match goal with
    | |- context [negb ?b] => destruct b
    end; simpl; auto.
Qed.

(** Once the eight draws have succeeded, [Init] returns no error and the
    setup it leaves holds the drawn scalars. *)
Lemma Init_after_draws rand setup cir alphas betas gammas s err :
  rand_ok rand ->
  Init rand setup cir alphas betas gammas = Returned (s, err) ->
  err = None /\ Toxic s = drawn rand.
Proof.
  intros Hr H. rewrite Init_prelude in H by assumption.
  pose proof (@for_loop_inv _ _ (Init_signal None cir alphas betas gammas)
                (fun s => Toxic s = drawn rand)
                (fun r => snd r = None /\ Toxic (fst r) = drawn rand)
                (fun i s Hs => @Init_signal_keeps None (drawn rand) cir alphas betas
                                 gammas i s Hs)
                (Z.to_nat (len (Signals cir) - 0)) 0 (Init_keys rand setup) eq_refl)
    as Hloop.
  unfold for_range at 1 in H.
  destruct (for_loop _ 0 (Init_signal None cir alphas betas gammas) _) as [s1|r|];
    [|simpl in H; inversion H; subst r; exact Hloop|discriminate].
  destruct (for_range 1 (len alphas - 1) Init_zpol [1]) as [z|r|] eqn:Ez;
    [|exfalso; eapply (@for_loop_no_return _ _ Init_zpol); [|exact Ez];
      intros; discriminate
     |discriminate].
  cbv zeta in H.
  destruct (for_range 1 (len z) _ _) as [[g t]|r|] eqn:Eg;
    [|exfalso; eapply for_loop_no_return; [|exact Eg];
      intros i0 [g0 t0] r0; discriminate
     |discriminate].
  simpl in H. inversion H; subst. split; [reflexivity|exact Hloop].
Qed.

End InitEdges.

Section InitErrors.

Context {F : Fields} {Cv : Curve}.

Ltac settle_draw D :=
  first [specialize (D ltac:(lia)); simpl in D; subst | clear D].

(** X1. The first draw that fails ends [Init] with that error; by then only
    toxic fields have been assigned: the proving key, the verifying key,
    G1T and G2T are as the caller passed them. *)
Theorem Init_returns_draw_error rand setup cir alphas betas gammas
    (k : nat) (e : string) :
  (k < 8)%nat ->
  (forall j, (j < k)%nat -> snd (rand j) = None) ->
  snd (rand k) = Some e ->
  exists s,
    Init rand setup cir alphas betas gammas = Returned (s, Some e) /\
    Pk s = Pk setup /\ Vk s = Vk setup /\
    G1T s = G1T setup /\ G2T s = G2T setup.
Proof.
  intros Hk Hb He.
  pose proof (Hb 0%nat) as D0. pose proof (Hb 1%nat) as D1.
  pose proof (Hb 2%nat) as D2. pose proof (Hb 3%nat) as D3.
  pose proof (Hb 4%nat) as D4. pose proof (Hb 5%nat) as D5.
  pose proof (Hb 6%nat) as D6. clear Hb.
  unfold Init, rand_into.
  do 8 (destruct k as [|k];
        [destruct (rand 0%nat) as [v0 e0], (rand 1%nat) as [v1 e1],
                  (rand 2%nat) as [v2 e2], (rand 3%nat) as [v3 e3],
                  (rand 4%nat) as [v4 e4], (rand 5%nat) as [v5 e5],
                  (rand 6%nat) as [v6 e6], (rand 7%nat) as [v7 e7];
         simpl in He; subst;
         settle_draw D0; settle_draw D1; settle_draw D2; settle_draw D3;
         settle_draw D4; settle_draw D5; settle_draw D6;
         eexists; split; [reflexivity|repeat split]
        |]).
  lia.
Qed.

(** X2. The only errors [Init] returns are those of the draws: a non-nil
    error is the error of the first draw that failed. *)
Theorem Init_error_comes_from_a_draw rand setup cir alphas betas gammas s (e : string) :
  Init rand setup cir alphas betas gammas = Returned (s, Some e) ->
  exists k, (k < 8)%nat /\ snd (rand k) = Some e /\
            forall j, (j < k)%nat -> snd (rand j) = None.
Proof.
  intros H.
  assert (Hfirst : forall n, (n <= 8)%nat ->
            (forall j, (j < n)%nat -> snd (rand j) = None) \/
            exists k e', (k < n)%nat /\ snd (rand k) = Some e' /\
                         forall j, (j < k)%nat -> snd (rand j) = None).
  { induction n as [|n IH]; intros Hn.
    - left. intros j Hj. lia.
    - destruct IH as [Hnone|(k & e' & Hk & He' & Hb)]; [lia| |].
      + destruct (snd (rand n)) as [e'|] eqn:En.
        * right. exists n, e'. repeat split; auto.
        * left. intros j Hj. destruct (Nat.eq_dec j n) as [->|]; [exact En|].
          apply Hnone. lia.
      + right. exists k, e'. repeat split; auto. }
  destruct (Hfirst 8%nat (le_n 8)) as [Hnone|(k & e' & Hk & He' & Hb)].
  - apply Init_after_draws in H; [|exact Hnone]. destruct H as [H _]. discriminate.
  - assert (Hpre : forall s0 cir0 al be ga, exists s',
               Init rand s0 cir0 al be ga = Returned (s', Some e')).
    { intros s0 cir0 al be ga.
      pose proof (Hb 0%nat) as D0. pose proof (Hb 1%nat) as D1.
      pose proof (Hb 2%nat) as D2. pose proof (Hb 3%nat) as D3.
      pose proof (Hb 4%nat) as D4. pose proof (Hb 5%nat) as D5.
      pose proof (Hb 6%nat) as D6. clear Hb H Hfirst.
      unfold Init, rand_into.
      do 8 (destruct k as [|k];
            [destruct (rand 0%nat) as [v0 e0], (rand 1%nat) as [v1 e1],
                      (rand 2%nat) as [v2 e2], (rand 3%nat) as [v3 e3],
                      (rand 4%nat) as [v4 e4], (rand 5%nat) as [v5 e5],
                      (rand 6%nat) as [v6 e6], (rand 7%nat) as [v7 e7];
             simpl in He'; subst;
             settle_draw D0; settle_draw D1; settle_draw D2; settle_draw D3;
             settle_draw D4; settle_draw D5; settle_draw D6;
             eexists; reflexivity
            |]).
      lia. }
    destruct (Hpre setup cir alphas betas gammas) as (s' & E).
    rewrite E in H. inversion H; subst.
    exists k. repeat split; auto.
Qed.

(** X3. [Init] keeps the toxic scalars in the setup: whenever the draws
    succeed and the call returns, at the end or at a failed check, the
    setup holds the eight drawn values and RhoC = FqR.Mul(RhoA, RhoB), and
    the error is nil. *)
Theorem Init_leaves_toxic_in_setup rand setup cir alphas betas gammas s err :
  rand_ok rand ->
  Init rand setup cir alphas betas gammas = Returned (s, err) ->
  err = None /\
  Toxic_T (Toxic s) = fst (rand 0%nat) /\
  Toxic_Ka (Toxic s) = fst (rand 1%nat) /\
  Toxic_Kb (Toxic s) = fst (rand 2%nat) /\
  Toxic_Kc (Toxic s) = fst (rand 3%nat) /\
  Toxic_Kbeta (Toxic s) = fst (rand 4%nat) /\
  Toxic_Kgamma (Toxic s) = fst (rand 5%nat) /\
  Toxic_RhoA (Toxic s) = fst (rand 6%nat) /\
  Toxic_RhoB (Toxic s) = fst (rand 7%nat) /\
  Toxic_RhoC (Toxic s) = FqR_Mul (fst (rand 6%nat)) (fst (rand 7%nat)).
Proof.
  intros Hr H. destruct (Init_after_draws _ _ _ _ _ Hr H) as [He Ht].
  split; [exact He|]. rewrite Ht. repeat split.
Qed.

(** A signal whose polynomial is missing from one of the three slices. *)
Lemma Init_signal_missing err cir alphas betas gammas (j : nat) s :
  (length alphas <= j)%nat \/ (length betas <= j)%nat \/ (length gammas <= j)%nat ->
  Init_signal err cir alphas betas gammas (Z.of_nat j) s = Panic.
Proof.
  intros Hm. unfold Init_signal.
  destruct (index alphas (Z.of_nat j)) eqn:Ea; [|reflexivity].
  destruct (index betas (Z.of_nat j)) eqn:Eb; [|reflexivity].
  destruct (index gammas (Z.of_nat j)) eqn:Eg; [|reflexivity].
  apply index_Some_bound in Ea, Eb, Eg. lia.
Qed.

(** X4. [Init] indexes alphas, betas and gammas by signal without looking
    at their lengths: when one of them has no entry for a signal [j] of
    the circuit, and the rounds before [j] went through, the call panics
    on the index. *)
Theorem Init_missing_polynomial_panics rand setup cir alphas betas gammas (j : nat) :
  rand_ok rand ->
  (j < length (Signals cir))%nat ->
  (j <= length alphas)%nat -> (j <= length betas)%nat -> (j <= length gammas)%nat ->
  (length alphas = j \/ length betas = j \/ length gammas = j) ->
  (forall i, (i < j)%nat ->
     consistent (drawn rand) (nth i alphas []) (nth i betas []) (nth i gammas []) = true) ->
  Init rand setup cir alphas betas gammas = Panicked.
Proof.
  intros Hr Hj Ha Hb Hg Hm Hc.
  rewrite Init_prelude by assumption.
  unfold for_range at 1. rewrite Z.sub_0_r. unfold len at 1. rewrite Nat2Z.id.
  replace (length (Signals cir))
    with (j + Datatypes.S (length (Signals cir) - j - 1))%nat by lia.
  rewrite for_loop_split.
  rewrite (@Init_signal_loop _ _ None (drawn rand) cir alphas betas gammas j 0%nat
             (Init_keys rand setup)); try reflexivity; try lia.
  2: { intros i Hi. apply Hc. lia. }
  cbn [for_loop]. rewrite ?Z.add_0_l.
  rewrite Init_signal_missing by lia. reflexivity.
Qed.

End InitErrors.

Section InitComposition.

Context {F : Fields} {Cv : Curve}.

(** X5. [Init] appends to the slices of the setup it is called on and
    overwrites the rest: on a setup that already holds entries, each slice
    of pk and vk.IC is the old slice followed by what a run on a fresh
    setup gives, while the toxic scalars, G1T, Z and the seven single
    points of vk are those of the fresh run; G2T is never assigned. *)
Theorem Init_appends_and_overwrites rand setup cir alphas betas gammas :
  Init_completes rand cir alphas betas gammas ->
  exists s s0,
    Init rand setup cir alphas betas gammas = Returned (s, None) /\
    Init rand empty_setup cir alphas betas gammas = Returned (s0, None) /\
    Pk_A (Pk s) = Pk_A (Pk setup) ++ Pk_A (Pk s0) /\
    Pk_B (Pk s) = Pk_B (Pk setup) ++ Pk_B (Pk s0) /\
    Pk_C (Pk s) = Pk_C (Pk setup) ++ Pk_C (Pk s0) /\
    Pk_Kp (Pk s) = Pk_Kp (Pk setup) ++ Pk_Kp (Pk s0) /\
    Pk_Ap (Pk s) = Pk_Ap (Pk setup) ++ Pk_Ap (Pk s0) /\
    Pk_Bp (Pk s) = Pk_Bp (Pk setup) ++ Pk_Bp (Pk s0) /\
    Pk_Cp (Pk s) = Pk_Cp (Pk setup) ++ Pk_Cp (Pk s0) /\
    Vk_IC (Vk s) = Vk_IC (Vk setup) ++ Vk_IC (Vk s0) /\
    Toxic s = Toxic s0 /\
    G1T s = G1T s0 /\
    Pk_Z (Pk s) = Pk_Z (Pk s0) /\
    Vk_Vka (Vk s) = Vk_Vka (Vk s0) /\
    Vk_Vkb (Vk s) = Vk_Vkb (Vk s0) /\
    Vk_Vkc (Vk s) = Vk_Vkc (Vk s0) /\
    Vk_G1Kbg (Vk s) = Vk_G1Kbg (Vk s0) /\
    Vk_G2Kbg (Vk s) = Vk_G2Kbg (Vk s0) /\
    Vk_G2Kg (Vk s) = Vk_G2Kg (Vk s0) /\
    Vk_Vkz (Vk s) = Vk_Vkz (Vk s0) /\
    G2T s = G2T setup.
Proof.
  intros Hc.
  exists (Init_result rand setup cir alphas betas gammas),
         (Init_result rand empty_setup cir alphas betas gammas).
  split; [now apply Init_complete_run|].
  split; [now apply Init_complete_run|].
  unfold Init_result, Init_rows, Init_keys. simpl.
  repeat split; reflexivity.
Qed.

(** X6. [Init] reads the circuit only through len(cir.Signals) and
    cir.NPublic: NVars and the names of the signals do not enter. *)
Theorem Init_reads_signal_count_and_NPublic rand setup cir cir' alphas betas gammas :
  length (Signals cir) = length (Signals cir') ->
  NPublic cir = NPublic cir' ->
  Init rand setup cir alphas betas gammas =
  Init rand setup cir' alphas betas gammas.
Proof.
  intros HS HN.
  assert (Hbody : forall err i s,
            Init_signal err cir alphas betas gammas i s =
            Init_signal err cir' alphas betas gammas i s).
  { intros err i s. unfold Init_signal. rewrite HN. reflexivity. }
  unfold Init, rand_into.
  destruct (rand 0%nat) as [v0 [e0|]]; [reflexivity|].
  destruct (rand 1%nat) as [v1 [e1|]]; [reflexivity|].
  destruct (rand 2%nat) as [v2 [e2|]]; [reflexivity|].
  destruct (rand 3%nat) as [v3 [e3|]]; [reflexivity|].
  destruct (rand 4%nat) as [v4 [e4|]]; [reflexivity|].
  destruct (rand 5%nat) as [v5 [e5|]]; [reflexivity|].
  destruct (rand 6%nat) as [v6 [e6|]]; [reflexivity|].
  destruct (rand 7%nat) as [v7 [e7|]]; [reflexivity|].
  cbv beta iota zeta. unfold for_range at 1 3. unfold len at 1 4.
  rewrite HS. rewrite (for_loop_ext _ _ (Hbody None)). reflexivity.
Qed.

(** X7. [Z()] returns the polynomial [Init] stored, and that polynomial
    depends on nothing but the number of entries of alphas: two complete
    runs, on any setups, circuits, draws and polynomials, whose alphas
    have the same length give the same [Z()]. *)
Theorem Z_depends_on_the_number_of_alphas
    rand setup cir alphas betas gammas rand' setup' cir' alphas' betas' gammas' :
  Init_completes rand cir alphas betas gammas ->
  Init_completes rand' cir' alphas' betas' gammas' ->
  length alphas = length alphas' ->
  exists s s',
    Init rand setup cir alphas betas gammas = Returned (s, None) /\
    Init rand' setup' cir' alphas' betas' gammas' = Returned (s', None) /\
    PinocchioSetup_Z s = zpol_of (len alphas) /\
    PinocchioSetup_Z s = PinocchioSetup_Z s'.
Proof.
  intros Hc Hc' Hl.
  exists (Init_result rand setup cir alphas betas gammas),
         (Init_result rand' setup' cir' alphas' betas' gammas').
  split; [now apply Init_complete_run|].
  split; [now apply Init_complete_run|].
  unfold PinocchioSetup_Z, Init_result, len. simpl. rewrite Hl.
  split; reflexivity.
Qed.

(** X8. [Init] followed by [Generate]: after a complete run on a setup
    with an empty proving key, every slice of pk has one entry per signal
    and G1T has as many entries as Z has coefficients (one if Z is empty),
    so [Generate] returns a proof for every circuit with
    NVars <= len(cir.Signals) and every witness of at least NVars entries
    whose quotient fits G1T. *)
Theorem Init_then_Generate rand setup cir alphas betas gammas :
  Init_completes rand cir alphas betas gammas ->
  Pk setup = Pk empty_setup ->
  exists s,
    Init rand setup cir alphas betas gammas = Returned (s, None) /\
    length (Pk_A (Pk s)) = length (Signals cir) /\
    length (Pk_B (Pk s)) = length (Signals cir) /\
    length (Pk_C (Pk s)) = length (Signals cir) /\
    length (Pk_Kp (Pk s)) = length (Signals cir) /\
    length (Pk_Ap (Pk s)) = length (Signals cir) /\
    length (Pk_Bp (Pk s)) = length (Signals cir) /\
    length (Pk_Cp (Pk s)) = length (Signals cir) /\
    length (G1T s) = Nat.max 1 (length (Pk_Z (Pk s))) /\
    forall cir' (w px : list Z),
      0 <= NPublic cir' < 2 ^ 63 - 1 ->
      NVars cir' <= len (Signals cir) ->
      NVars cir' <= len w ->
      len (PF_DivisorPolynomial px (Pk_Z (Pk s))) <= len (G1T s) ->
      Generate s cir' w px =
      Returned (PinocchioP (Generate_result s cir' w px), None).
Proof.
  intros Hc HPk.
  exists (Init_result rand setup cir alphas betas gammas).
  split; [now apply Init_complete_run|].
  assert (HL : length (Pk_A (Pk (Init_result rand setup cir alphas betas gammas))) =
               length (Signals cir) /\
          length (Pk_B (Pk (Init_result rand setup cir alphas betas gammas))) =
               length (Signals cir) /\
          length (Pk_C (Pk (Init_result rand setup cir alphas betas gammas))) =
               length (Signals cir) /\
          length (Pk_Kp (Pk (Init_result rand setup cir alphas betas gammas))) =
               length (Signals cir) /\
          length (Pk_Ap (Pk (Init_result rand setup cir alphas betas gammas))) =
               length (Signals cir) /\
          length (Pk_Bp (Pk (Init_result rand setup cir alphas betas gammas))) =
               length (Signals cir) /\
          length (Pk_Cp (Pk (Init_result rand setup cir alphas betas gammas))) =
               length (Signals cir)).
  { unfold Init_result, Init_rows, Init_keys. simpl. rewrite HPk. simpl.
    rewrite !length_map, !length_seq. repeat split; reflexivity. }
  destruct HL as (LA & LB & LC & LK & LAp & LBp & LCp).
  repeat (split; [assumption|]).
  split.
  { unfold Init_result, g1t_of. simpl. rewrite length_map, length_seq.
    destruct (length (zpol_of (len alphas))); lia. }
  intros cir' w px HP HN Hw Hh.
  apply Generate_returns. unfold len in *.
  constructor; unfold len; rewrite ?LA, ?LB, ?LC, ?LK, ?LAp, ?LBp, ?LCp;
    assumption.
Qed.

Context {Pr : PairingOps}.

(** X9. [Init] followed by [Verify]: after a complete run on a setup with
    an empty vk.IC, for a circuit with 0 <= NPublic < len(cir.Signals),
    [Verify] of a Pinocchio proof returns a verdict and a nil error for
    every list of at most NPublic public signals, and panics on an index
    for a longer list when the first three checks pass. *)
Theorem Init_then_Verify rand setup cir alphas betas gammas :
  Init_completes rand cir alphas betas gammas ->
  Vk_IC (Vk setup) = [] ->
  0 <= NPublic cir < len (Signals cir) ->
  exists s,
    Init rand setup cir alphas betas gammas = Returned (s, None) /\
    forall pi (publicSignals : list Z),
      (len publicSignals <= NPublic cir ->
       exists b,
         Verify s (PinocchioP pi) publicSignals = Returned (b, None) /\
         (b = true <-> five_equations s pi publicSignals)) /\
      (NPublic cir < len publicSignals ->
       pairing_eq1 s pi -> pairing_eq2 s pi -> pairing_eq3 s pi ->
       Verify s (PinocchioP pi) publicSignals = Panicked).
Proof.
  intros Hc HIC HP.
  exists (Init_result rand setup cir alphas betas gammas).
  split; [now apply Init_complete_run|].
  assert (HL : length (Vk_IC (Vk (Init_result rand setup cir alphas betas gammas))) =
               Z.to_nat (NPublic cir + 1)).
  { unfold Init_result, Init_rows, Init_keys. simpl. rewrite HIC. simpl.
    rewrite length_map, filter_le_seq, length_seq. unfold len in HP. lia. }
  intros pi ps. unfold len in *. split.
  - intros Hps.
    destruct (@Verify_in_range _ _ (Init_result rand setup cir alphas betas gammas)
                pi ps) as [[H5 E]|[H5 E]]; [rewrite HL; lia| |].
    + exists true. split; [exact E|tauto].
    + exists false. split; [exact E|]. split; [discriminate|contradiction].
  - intros Hps E1 E2 E3. apply Verify_out_of_range; try assumption.
    rewrite HL. lia.
Qed.

End InitComposition.

Section GenerateEdges.

Context {F : Fields} {Cv : Curve}.

Lemma Generate_h_loop_panics setup (hx : list Z) n : forall lo proof,
  (lo + n <= length hx)%nat ->
  (length (G1T setup) < lo + n)%nat ->
  (0 < n)%nat ->
  for_loop n (Z.of_nat lo) (Generate_h setup hx) proof = Panic.
Proof.
  induction n as [|n IH]; intros lo proof Hh HG Hn; [lia|].
  simpl for_loop. unfold Generate_h at 1.
  destruct (Nat.le_gt_cases (length (G1T setup)) lo) as [Hout|Hin].
  - rewrite index_none_high by (unfold len; lia). reflexivity.
  - rewrite (@index_nth _ _ _ zeroG1) by lia.
    rewrite (@index_nth _ _ _ 0) by lia.
    replace (Z.of_nat lo + 1) with (Z.of_nat (Datatypes.S lo)) by lia.
    apply IH; lia.
Qed.

(** X10. [Generate] does not compare the quotient with G1T: when the
    quotient [DivisorPolynomial] returns has more coefficients than G1T has
    entries, the call panics on the index of G1T, after the other seven
    points have been accumulated. *)
Theorem Generate_quotient_too_long_panics setup cir (w px : list Z) :
  0 <= NPublic cir < 2 ^ 63 - 1 ->
  NVars cir <= len (Pk_A (Pk setup)) ->
  NVars cir <= len (Pk_Ap (Pk setup)) ->
  NVars cir <= len (Pk_B (Pk setup)) ->
  NVars cir <= len (Pk_Bp (Pk setup)) ->
  NVars cir <= len (Pk_C (Pk setup)) ->
  NVars cir <= len (Pk_Cp (Pk setup)) ->
  NVars cir <= len (Pk_Kp (Pk setup)) ->
  NVars cir <= len w ->
  len (G1T setup) < len (PF_DivisorPolynomial px (Pk_Z (Pk setup))) ->
  Generate setup cir w px = Panicked.
Proof.
  intros HP HA HAp HB HBp HC HCp HK Hw Hh.
  unfold Generate. cbv zeta.
  rewrite for_range_private by assumption.
  rewrite for_range_all by assumption.
  unfold for_range, len in *. rewrite Z.sub_0_r, Nat2Z.id.
  pose proof (@Generate_h_loop_panics setup
                (PF_DivisorPolynomial px (Pk_Z (Pk setup)))
                (length (PF_DivisorPolynomial px (Pk_Z (Pk setup)))) 0%nat) as L.
  change (Z.of_nat 0) with 0 in L. rewrite L by lia. reflexivity.
Qed.

(** X11. The private loop starts at the [int] NPublic + 1 as it is: when
    that start is negative (NPublic below -1, or NPublic at the top of the
    range, where the addition wraps around) and below NVars, [Generate]
    panics on the index instead of skipping the loop. *)
Theorem Generate_negative_start_panics setup cir (w px : list Z) :
  int_wrap (NPublic cir + 1) < 0 ->
  int_wrap (NPublic cir + 1) < NVars cir ->
  Generate setup cir w px = Panicked.
Proof.
  intros Hneg Hlt. unfold Generate, for_range. cbv zeta.
  destruct (Z.to_nat (NVars cir - int_wrap (NPublic cir + 1))) as [|n] eqn:En; [lia|].
  simpl for_loop. unfold Generate_private at 1.
  rewrite index_negative by assumption. reflexivity.
Qed.

Lemma sumG1_agree pts (w w' : list Z) idx : forall init,
  (forall i, In i idx -> nth i w 0 = nth i w' 0) ->
  sumG1 pts w idx init = sumG1 pts w' idx init.
Proof.
  unfold sumG1. induction idx as [|i idx IH]; intros init H; [reflexivity|].
  simpl. rewrite (H i) by (left; reflexivity).
  apply IH. intros j Hj. apply H. right. exact Hj.
Qed.

(** X12. What each input of [Generate] reaches: piA and piA' do not depend
    on the public entries of the witness (two witnesses that agree on the
    indices NPublic < i < NVars give the same piA and piA'); piH depends on
    the polynomial only, not on the witness; the other seven points depend
    on the witness only, not on the polynomial. *)
Theorem Generate_separates_its_inputs setup cir (w w' px px' : list Z) :
  Generate_in_range setup cir w px ->
  Generate_in_range setup cir w' px' ->
  exists pi pi',
    Generate setup cir w px = Returned (PinocchioP pi, None) /\
    Generate setup cir w' px' = Returned (PinocchioP pi', None) /\
    ((forall i, NPublic cir < Z.of_nat i < NVars cir -> nth i w 0 = nth i w' 0) ->
     PiA pi = PiA pi' /\ PiAp pi = PiAp pi') /\
    (px = px' -> PiH pi = PiH pi') /\
    (w = w' ->
     PiA pi = PiA pi' /\ PiAp pi = PiAp pi' /\ PiB pi = PiB pi' /\
     PiBp pi = PiBp pi' /\ PiC pi = PiC pi' /\ PiCp pi = PiCp pi' /\
     PiKp pi = PiKp pi').
Proof.
  intros Hr Hr'.
  exists (Generate_result setup cir w px), (Generate_result setup cir w' px').
  split; [now apply Generate_returns|]. split; [now apply Generate_returns|].
  pose proof (gir_public Hr) as HP.
  unfold Generate_result. cbv zeta. cbn [PiA PiAp PiB PiBp PiC PiCp PiH PiKp].
  split; [|split].
  - intros Hag. split; apply sumG1_agree; intros i Hi;
      apply Hag; apply in_indices_between in Hi; lia.
  - intros ->. reflexivity.
  - intros ->. repeat split; reflexivity.
Qed.

(** X13. [Generate] reads the proving key, G1T, cir.NPublic and cir.NVars
    and nothing else: the toxic scalars, the verifying key, G2T and the
    signal names of the circuit do not enter the proof. *)
Theorem Generate_reads_only_the_proving_key setup setup' cir cir' (w px : list Z) :
  Pk setup = Pk setup' ->
  G1T setup = G1T setup' ->
  NPublic cir = NPublic cir' ->
  NVars cir = NVars cir' ->
  Generate setup cir w px = Generate setup' cir' w px.
Proof.
  intros HPk HG HP HN.
  destruct setup as [tx g1 g2 pk vk], setup' as [tx' g1' g2' pk' vk'].
  destruct cir as [nv np sg], cir' as [nv' np' sg'].
  simpl in HPk, HG, HP, HN. subst. reflexivity.
Qed.

Context {Pr : PairingOps}.

(** X14. [Verify] reads the verifying key and nothing else of the setup:
    two setups with the same vk give the same result on every proof and
    every list of public signals, whatever their toxic scalars, proving
    keys and G1T. *)
Theorem Verify_reads_only_the_verifying_key setup setup' proof (publicSignals : list Z) :
  Vk setup = Vk setup' ->
  Verify setup proof publicSignals = Verify setup' proof publicSignals.
Proof.
  intros HVk.
  destruct setup as [tx g1 g2 pk vk], setup' as [tx' g1' g2' pk' vk'].
  simpl in HVk. subst. reflexivity.
Qed.

End GenerateEdges.

(** ** The further properties at the demo circuit *)

Lemma Demo_completes_other_draws :
  @Init_completes Demo.fields Demo.curve Demo.rand7 Demo.cir
    Demo.alphas Demo.betas Demo.gammas.
Proof.
  constructor.
  - exact Demo_rand7_ok.
  - vm_compute. lia.
  - vm_compute. lia.
  - vm_compute. lia.
  - intros i Hi. change (length (Signals Demo.cir)) with 3%nat in Hi.
    destruct i as [|[|[|i]]]; [vm_compute; reflexivity ..|lia].
Qed.

Lemma Edge_draws_before_failure :
  forall j, (j < 3)%nat -> snd (Edge.rand_failing j) = None.
Proof.
  intros j Hj. destruct j as [|[|[|j]]]; [reflexivity ..|lia].
Qed.

Lemma Init_returns_draw_error_witness :
  (3 < 8)%nat /\
  (forall j, (j < 3)%nat -> snd (Edge.rand_failing j) = None) /\
  snd (Edge.rand_failing 3%nat) = Some "no entropy"%string /\
  exists s,
    @Init Demo.fields Demo.curve Edge.rand_failing empty_setup Demo.cir
      Demo.alphas Demo.betas Demo.gammas = Returned (s, Some "no entropy"%string) /\
    Pk s = Pk empty_setup /\ Vk s = Vk empty_setup /\
    G1T s = G1T empty_setup /\ G2T s = G2T empty_setup.
Proof.
  split; [lia|]. split; [exact Edge_draws_before_failure|]. split; [reflexivity|].
  apply (@Init_returns_draw_error Demo.fields Demo.curve Edge.rand_failing
           empty_setup Demo.cir Demo.alphas Demo.betas Demo.gammas 3%nat
           "no entropy"%string);
    [lia|exact Edge_draws_before_failure|reflexivity].
Defined.

Lemma Init_error_comes_from_a_draw_witness :
  @Init Demo.fields Demo.curve Edge.rand_failing empty_setup Demo.cir
    Demo.alphas Demo.betas Demo.gammas =
  Returned (Edge.setup_after_failed_draw, Some "no entropy"%string) /\
  exists k, (k < 8)%nat /\ snd (Edge.rand_failing k) = Some "no entropy"%string /\
            forall j, (j < k)%nat -> snd (Edge.rand_failing j) = None.
Proof.
  assert (H : @Init Demo.fields Demo.curve Edge.rand_failing empty_setup Demo.cir
                Demo.alphas Demo.betas Demo.gammas =
              Returned (Edge.setup_after_failed_draw, Some "no entropy"%string))
    by (vm_compute; reflexivity).
  split; [exact H|].
  exact (@Init_error_comes_from_a_draw Demo.fields Demo.curve Edge.rand_failing
           empty_setup Demo.cir Demo.alphas Demo.betas Demo.gammas
           Edge.setup_after_failed_draw "no entropy"%string H).
Defined.

Lemma Init_leaves_toxic_in_setup_witness :
  rand_ok Demo.rand /\
  @Init Demo.fields Demo.curve Demo.rand empty_setup Demo.cir
    Demo.alphas Demo.betas Demo.gammas = Returned (Demo.setup, None) /\
  Toxic_T (Toxic Demo.setup) = 5 /\
  Toxic_RhoC (Toxic Demo.setup) = @FqR_Mul Demo.fields 2 3.
Proof.
  split; [exact Demo_rand_ok|]. split; [exact Demo_setup_from_Init|].
  destruct (@Init_leaves_toxic_in_setup Demo.fields Demo.curve Demo.rand empty_setup
              Demo.cir Demo.alphas Demo.betas Demo.gammas Demo.setup None
              Demo_rand_ok Demo_setup_from_Init)
    as (_ & HT & _ & _ & _ & _ & _ & _ & _ & HC).
  split; [exact HT|exact HC].
Defined.

Lemma Edge_short_checks :
  forall i, (i < 2)%nat ->
    @consistent Demo.fields Demo.curve (@drawn Demo.fields Demo.rand)
      (nth i Edge.alphas_short []) (nth i Demo.betas []) (nth i Demo.gammas []) = true.
Proof.
  intros i Hi. destruct i as [|[|i]]; [vm_compute; reflexivity ..|lia].
Qed.

Lemma Init_missing_polynomial_panics_witness :
  rand_ok Demo.rand /\
  (2 < length (Signals Demo.cir))%nat /\
  (2 <= length Edge.alphas_short)%nat /\
  (2 <= length Demo.betas)%nat /\ (2 <= length Demo.gammas)%nat /\
  (length Edge.alphas_short = 2%nat \/ length Demo.betas = 2%nat \/
   length Demo.gammas = 2%nat) /\
  @Init Demo.fields Demo.curve Demo.rand empty_setup Demo.cir
    Edge.alphas_short Demo.betas Demo.gammas = Panicked.
Proof.
  assert (H1 : (2 < length (Signals Demo.cir))%nat) by (cbn; lia).
  assert (H2 : (2 <= length Edge.alphas_short)%nat) by (cbn; lia).
  assert (H3 : (2 <= length Demo.betas)%nat) by (cbn; lia).
  assert (H4 : (2 <= length Demo.gammas)%nat) by (cbn; lia).
  assert (H5 : length Edge.alphas_short = 2%nat \/ length Demo.betas = 2%nat \/
               length Demo.gammas = 2%nat) by (left; reflexivity).
  split; [exact Demo_rand_ok|]. split; [exact H1|]. split; [exact H2|].
  split; [exact H3|]. split; [exact H4|]. split; [exact H5|].
  exact (@Init_missing_polynomial_panics Demo.fields Demo.curve Demo.rand
           empty_setup Demo.cir Edge.alphas_short Demo.betas Demo.gammas 2%nat
           Demo_rand_ok H1 H2 H3 H4 H5 Edge_short_checks).
Defined.

Lemma Init_appends_and_overwrites_witness :
  @Init_completes Demo.fields Demo.curve Demo.rand Demo.cir
    Demo.alphas Demo.betas Demo.gammas /\
  exists s s0,
    @Init Demo.fields Demo.curve Demo.rand Demo.setup Demo.cir
      Demo.alphas Demo.betas Demo.gammas = Returned (s, None) /\
    @Init Demo.fields Demo.curve Demo.rand empty_setup Demo.cir
      Demo.alphas Demo.betas Demo.gammas = Returned (s0, None) /\
    Pk_A (Pk s) = Pk_A (Pk Demo.setup) ++ Pk_A (Pk s0) /\
    G1T s = G1T s0.
Proof.
  split; [exact Demo_completes|].
  destruct (@Init_appends_and_overwrites Demo.fields Demo.curve Demo.rand
              Demo.setup Demo.cir Demo.alphas Demo.betas Demo.gammas Demo_completes)
    as (s & s0 & E & E0 & HA & _ & _ & _ & _ & _ & _ & _ & _ & HG & _).
  exists s, s0. split; [exact E|]. split; [exact E0|]. split; [exact HA|exact HG].
Defined.

Lemma Init_reads_signal_count_and_NPublic_witness :
  length (Signals Demo.cir) = length (Signals Edge.cir_renamed) /\
  NPublic Demo.cir = NPublic Edge.cir_renamed /\
  @Init Demo.fields Demo.curve Demo.rand empty_setup Demo.cir
    Demo.alphas Demo.betas Demo.gammas =
  @Init Demo.fields Demo.curve Demo.rand empty_setup Edge.cir_renamed
    Demo.alphas Demo.betas Demo.gammas.
Proof.
  split; [reflexivity|]. split; [reflexivity|].
  exact (@Init_reads_signal_count_and_NPublic Demo.fields Demo.curve Demo.rand
           empty_setup Demo.cir Edge.cir_renamed Demo.alphas Demo.betas Demo.gammas
           eq_refl eq_refl).
Defined.

Lemma Z_depends_on_the_number_of_alphas_witness :
  @Init_completes Demo.fields Demo.curve Demo.rand Demo.cir
    Demo.alphas Demo.betas Demo.gammas /\
  @Init_completes Demo.fields Demo.curve Demo.rand7 Demo.cir
    Demo.alphas Demo.betas Demo.gammas /\
  length Demo.alphas = length Demo.alphas /\
  exists s s',
    @Init Demo.fields Demo.curve Demo.rand empty_setup Demo.cir
      Demo.alphas Demo.betas Demo.gammas = Returned (s, None) /\
    @Init Demo.fields Demo.curve Demo.rand7 Demo.setup Demo.cir
      Demo.alphas Demo.betas Demo.gammas = Returned (s', None) /\
    PinocchioSetup_Z s = PinocchioSetup_Z s'.
Proof.
  split; [exact Demo_completes|]. split; [exact Demo_completes_other_draws|].
  split; [reflexivity|].
  destruct (@Z_depends_on_the_number_of_alphas Demo.fields Demo.curve
              Demo.rand empty_setup Demo.cir Demo.alphas Demo.betas Demo.gammas
              Demo.rand7 Demo.setup Demo.cir Demo.alphas Demo.betas Demo.gammas
              Demo_completes Demo_completes_other_draws eq_refl)
    as (s & s' & E & E' & _ & HZ).
  exists s, s'. split; [exact E|]. split; [exact E'|exact HZ].
Defined.

Lemma Init_then_Generate_witness :
  @Init_completes Demo.fields Demo.curve Demo.rand Demo.cir
    Demo.alphas Demo.betas Demo.gammas /\
  Pk empty_setup = Pk empty_setup /\
  exists s,
    @Init Demo.fields Demo.curve Demo.rand empty_setup Demo.cir
      Demo.alphas Demo.betas Demo.gammas = Returned (s, None) /\
    length (Pk_A (Pk s)) = length (Signals Demo.cir) /\
    length (G1T s) = Nat.max 1 (length (Pk_Z (Pk s))).
Proof.
  split; [exact Demo_completes|]. split; [reflexivity|].
  destruct (@Init_then_Generate Demo.fields Demo.curve Demo.rand empty_setup
              Demo.cir Demo.alphas Demo.betas Demo.gammas Demo_completes eq_refl)
    as (s & E & HA & _ & _ & _ & _ & _ & _ & HG & _).
  exists s. split; [exact E|]. split; [exact HA|exact HG].
Defined.

Lemma Init_then_Verify_witness :
  @Init_completes Demo.fields Demo.curve Demo.rand Demo.cir
    Demo.alphas Demo.betas Demo.gammas /\
  Vk_IC (Vk empty_setup) = [] /\
  0 <= NPublic Demo.cir < len (Signals Demo.cir) /\
  exists s,
    @Init Demo.fields Demo.curve Demo.rand empty_setup Demo.cir
      Demo.alphas Demo.betas Demo.gammas = Returned (s, None) /\
    exists b,
      @Verify Demo.curve FreePairing.Ops s (PinocchioP Demo.proof) [9] =
      Returned (b, None).
Proof.
  assert (HP : 0 <= NPublic Demo.cir < len (Signals Demo.cir))
    by (split; [apply Z.leb_le|apply Z.ltb_lt]; vm_compute; reflexivity).
  split; [exact Demo_completes|]. split; [reflexivity|]. split; [exact HP|].
  destruct (@Init_then_Verify Demo.fields Demo.curve FreePairing.Ops Demo.rand
              empty_setup Demo.cir Demo.alphas Demo.betas Demo.gammas
              Demo_completes eq_refl HP)
    as (s & E & HV).
  exists s. split; [exact E|].
  destruct (proj1 (HV Demo.proof [9])) as (b & Eb & _).
  - apply Z.leb_le. vm_compute. reflexivity.
  - exists b. exact Eb.
Defined.

Lemma Generate_quotient_too_long_panics_witness :
  len (G1T Demo.setup) <
    len (@PF_DivisorPolynomial Demo.fields Edge.px_cubic (Pk_Z (Pk Demo.setup))) /\
  @Generate Demo.fields Demo.curve Demo.setup Demo.cir Demo.w Edge.px_cubic =
  Panicked.
Proof.
  assert (H : len (G1T Demo.setup) <
              len (@PF_DivisorPolynomial Demo.fields Edge.px_cubic
                     (Pk_Z (Pk Demo.setup))))
    by (apply Z.ltb_lt; vm_compute; reflexivity).
  split; [exact H|].
  apply (@Generate_quotient_too_long_panics Demo.fields Demo.curve Demo.setup
           Demo.cir Demo.w Edge.px_cubic);
    try exact H;
    try (apply Z.leb_le; vm_compute; reflexivity).
  split; [apply Z.leb_le|apply Z.ltb_lt]; vm_compute; reflexivity.
Defined.

Lemma Generate_negative_start_panics_witness :
  int_wrap (NPublic Edge.cir_wrap + 1) < 0 /\
  int_wrap (NPublic Edge.cir_wrap + 1) < NVars Edge.cir_wrap /\
  @Generate Demo.fields Demo.curve Demo.setup Edge.cir_wrap Demo.w Demo.px =
  Panicked.
Proof.
  assert (H1 : int_wrap (NPublic Edge.cir_wrap + 1) < 0)
    by (apply Z.ltb_lt; vm_compute; reflexivity).
  assert (H2 : int_wrap (NPublic Edge.cir_wrap + 1) < NVars Edge.cir_wrap)
    by (apply Z.ltb_lt; vm_compute; reflexivity).
  split; [exact H1|]. split; [exact H2|].
  exact (@Generate_negative_start_panics Demo.fields Demo.curve Demo.setup
           Edge.cir_wrap Demo.w Demo.px H1 H2).
Defined.

(** The honest and the tampered demo witness differ in the public output
    only: their proofs share piA and piA'. *)
Lemma Generate_separates_its_inputs_witness :
  @Generate_in_range Demo.fields Demo.setup Demo.cir Demo.w Demo.px /\
  @Generate_in_range Demo.fields Demo.setup Demo.cir Demo.w_tampered Demo.px_tampered /\
  exists pi pi',
    @Generate Demo.fields Demo.curve Demo.setup Demo.cir Demo.w Demo.px =
    Returned (PinocchioP pi, None) /\
    @Generate Demo.fields Demo.curve Demo.setup Demo.cir Demo.w_tampered
      Demo.px_tampered = Returned (PinocchioP pi', None) /\
    PiA pi = PiA pi' /\ PiAp pi = PiAp pi'.
Proof.
  assert (H : @Generate_in_range Demo.fields Demo.setup Demo.cir Demo.w Demo.px)
    by (apply Demo_in_range; vm_compute; reflexivity).
  assert (H' : @Generate_in_range Demo.fields Demo.setup Demo.cir
                 Demo.w_tampered Demo.px_tampered)
    by (apply Demo_in_range; vm_compute; reflexivity).
  split; [exact H|]. split; [exact H'|].
  destruct (@Generate_separates_its_inputs Demo.fields Demo.curve Demo.setup
              Demo.cir Demo.w Demo.w_tampered Demo.px Demo.px_tampered H H')
    as (pi & pi' & E & E' & Hpriv & _).
  exists pi, pi'. split; [exact E|]. split; [exact E'|].
  apply Hpriv. intros i Hi.
  change (NPublic Demo.cir) with 1 in Hi. change (NVars Demo.cir) with 3 in Hi.
  assert (Hi2 : i = 2%nat) by lia. subst i. reflexivity.
Defined.

Lemma Generate_reads_only_the_proving_key_witness :
  Pk Demo.setup = Pk (upd_Toxic (set_T 0) (upd_Vk (set_IC []) Demo.setup)) /\
  G1T Demo.setup = G1T (upd_Toxic (set_T 0) (upd_Vk (set_IC []) Demo.setup)) /\
  NPublic Demo.cir = NPublic Edge.cir_renamed /\
  NVars Demo.cir = NVars Demo.cir /\
  @Generate Demo.fields Demo.curve Demo.setup Demo.cir Demo.w Demo.px =
  @Generate Demo.fields Demo.curve
    (upd_Toxic (set_T 0) (upd_Vk (set_IC []) Demo.setup))
    (mkCircuit (NVars Demo.cir) (NPublic Edge.cir_renamed) []) Demo.w Demo.px.
Proof.
  split; [reflexivity|]. split; [reflexivity|]. split; [reflexivity|].
  split; [reflexivity|].
  exact (@Generate_reads_only_the_proving_key Demo.fields Demo.curve Demo.setup
           (upd_Toxic (set_T 0) (upd_Vk (set_IC []) Demo.setup)) Demo.cir
           (mkCircuit (NVars Demo.cir) (NPublic Edge.cir_renamed) []) Demo.w Demo.px
           eq_refl eq_refl eq_refl eq_refl).
Defined.

Lemma Verify_reads_only_the_verifying_key_witness :
  Vk Demo.setup = Vk (upd_Toxic (set_T 0) (upd_Pk (set_Pk_A []) Demo.setup)) /\
  @Verify Demo.curve FreePairing.Ops Demo.setup (PinocchioP Demo.proof) [9] =
  @Verify Demo.curve FreePairing.Ops
    (upd_Toxic (set_T 0) (upd_Pk (set_Pk_A []) Demo.setup))
    (PinocchioP Demo.proof) [9].
Proof.
  split; [reflexivity|].
  exact (@Verify_reads_only_the_verifying_key Demo.curve FreePairing.Ops Demo.setup
           (upd_Toxic (set_T 0) (upd_Pk (set_Pk_A []) Demo.setup))
           (PinocchioP Demo.proof) [9] eq_refl).
Defined.
